(** * photo-liker: the feed-state engine of [server.js]

    A shallow embedding of the in-memory reaction feed: the item store
    ([createPhoto], [ensurePhotos], [getOrCreatePhoto]), the reaction counter
    ([addReaction]), the comment ledger ([sanitizeText], [addComment]), the
    ranker and pager ([getFeed]) and the serializer ([serializePhoto],
    [computeTotals]).

    Modelling conventions.
    - A JavaScript string is the list of its UTF-16 code units.
    - Counters, timestamps, cursors and limits are integers ([Z]); the
      rounding of IEEE doubles above 2^53 and fractional or infinite
      pagination parameters are outside the model.
    - [Date.now()] and [Math.random()] read an environment: the [k]-th
      reading of the clock is [clock k], the [k]-th random number, already
      rendered by [toString(16)], is [random k].  The state counts the
      readings made so far.
    - A value of type [M A] is a computation of [server.js]: it takes the
      state and returns either a value or a thrown exception, with the
      state as it is at that point.
    - An object reference to a photo held in [feedState.photos] is its
      position in that array; [ref] records the identity of the object (its
      allocation number) and is never read by the program. *)

From Stdlib Require Import String Ascii.
From Stdlib Require Import List ZArith NArith Lia Bool Permutation Sorted.
Import ListNotations.
Local Open Scope Z_scope.

(** ** JavaScript strings and array primitives *)

Definition jschar := N.
Definition jsstring := list jschar.

(** An ASCII literal as a JavaScript string. *)
Definition js (s : string) : jsstring :=
  List.map N_of_ascii (list_ascii_of_string s).

Fixpoint str_eqb (a b : jsstring) : bool :=
  match a, b with
  | [], [] => true
  | x :: a', y :: b' => N.eqb x y && str_eqb a' b'
  | _, _ => false
  end.

(** The relative index of [Array.prototype.slice] and
    [String.prototype.slice]: negative offsets count from the end, and
    everything is clamped to [0 .. len]. *)
Definition rel_index (len k : Z) : Z :=
  if k <? 0 then Z.max (len + k) 0 else Z.min k len.

Definition slice {A : Type} (l : list A) (start stop : Z) : list A :=
  let len := Z.of_nat (List.length l) in
  let from := rel_index len start in
  let to := rel_index len stop in
  firstn (Z.to_nat (to - from)) (skipn (Z.to_nat from) l).

(** [slice(start)], the end index left out. *)
Definition slice_from {A : Type} (l : list A) (start : Z) : list A :=
  slice l start (Z.of_nat (List.length l)).

(** [Array.prototype.findIndex]; [find] returns the element at that
    position. *)
Fixpoint findIndex {A : Type} (f : A -> bool) (l : list A) : option nat :=
  match l with
  | [] => None
  | x :: l' => if f x then Some O else option_map S (findIndex f l')
  end.

(** Assignment through a reference to the [i]-th element. *)
Fixpoint update_nth {A : Type} (i : nat) (f : A -> A) (l : list A) : list A :=
  match l, i with
  | [], _ => []
  | x :: l', O => f x :: l'
  | x :: l', S i' => x :: update_nth i' f l'
  end.

(** The decimal rendering of an integer inside a template literal. *)
Fixpoint uint_chars (d : Decimal.uint) : jsstring :=
  match d with
  | Decimal.Nil => []
  | Decimal.D0 d => 48%N :: uint_chars d
  | Decimal.D1 d => 49%N :: uint_chars d
  | Decimal.D2 d => 50%N :: uint_chars d
  | Decimal.D3 d => 51%N :: uint_chars d
  | Decimal.D4 d => 52%N :: uint_chars d
  | Decimal.D5 d => 53%N :: uint_chars d
  | Decimal.D6 d => 54%N :: uint_chars d
  | Decimal.D7 d => 55%N :: uint_chars d
  | Decimal.D8 d => 56%N :: uint_chars d
  | Decimal.D9 d => 57%N :: uint_chars d
  end.

Definition number_toString (z : Z) : jsstring :=
  match Z.to_int z with
  | Decimal.Pos d => uint_chars d
  | Decimal.Neg d => 45%N :: uint_chars d
  end.

(** ** Text normalisation *)

(** The class [\s] of a regular expression, which is also the set that
    [String.prototype.trim] strips: WhiteSpace and LineTerminator. *)
Definition is_space (c : jschar) : bool :=
  ((9 <=? c) && (c <=? 13) || (c =? 32) || (c =? 160) || (c =? 5760)
   || (8192 <=? c) && (c <=? 8202) || (c =? 8232) || (c =? 8233)
   || (c =? 8239) || (c =? 8287) || (c =? 12288) || (c =? 65279))%N.

(** [text.replace(/\s+/g, ' ')]: every maximal run of white space becomes
    one space.  [in_run] tells that the previous code unit was white
    space, so that the run has been replaced already. *)
Fixpoint replace_spaces (in_run : bool) (s : jsstring) : jsstring :=
  match s with
  | [] => []
  | c :: s' =>
      if is_space c
      then (if in_run then replace_spaces true s'
            else 32%N :: replace_spaces true s')
      else c :: replace_spaces false s'
  end.

Fixpoint trimStart (s : jsstring) : jsstring :=
  match s with
  | [] => []
  | c :: s' => if is_space c then trimStart s' else s
  end.

Definition trimEnd (s : jsstring) : jsstring := rev (trimStart (rev s)).

Definition trim (s : jsstring) : jsstring := trimEnd (trimStart s).

Definition MAX_COMMENTS_PER_PHOTO : Z := 80.
Definition MAX_COMMENT_LENGTH : Z := 240.
Definition DEFAULT_PAGE_SIZE : Z := 8.
Definition INITIAL_PHOTO_COUNT : Z := 18.
Definition CAT_URL : jsstring := js "https://cataas.com/cat/gif".

Definition sanitizeText (text : jsstring) : jsstring :=
  slice (trim (replace_spaces false text)) 0 MAX_COMMENT_LENGTH.

(** ** The data model *)

(** A comment, the object [entry] of [addComment].  [timestamp] is the
    instant that [toISOString] renders. *)
Module Entry.
Record t := mk {
  id : jsstring;
  text : jsstring;
  photoId : jsstring;
  timestamp : Z
}.
End Entry.

Record Photo := mkPhoto {
  ref : nat;
  id : jsstring;
  url : jsstring;
  likes : Z;
  dislikes : Z;
  comments : list Entry.t;
  updatedAt : Z
}.

Definition set_id (v : jsstring) (p : Photo) : Photo :=
  mkPhoto (ref p) v (url p) (likes p) (dislikes p) (comments p) (updatedAt p).
Definition set_likes (v : Z) (p : Photo) : Photo :=
  mkPhoto (ref p) (id p) (url p) v (dislikes p) (comments p) (updatedAt p).
Definition set_dislikes (v : Z) (p : Photo) : Photo :=
  mkPhoto (ref p) (id p) (url p) (likes p) v (comments p) (updatedAt p).
Definition set_comments (v : list Entry.t) (p : Photo) : Photo :=
  mkPhoto (ref p) (id p) (url p) (likes p) (dislikes p) v (updatedAt p).
Definition set_updatedAt (v : Z) (p : Photo) : Photo :=
  mkPhoto (ref p) (id p) (url p) (likes p) (dislikes p) (comments p) v.

(** The object built by [serializePhoto]. *)
Module View.
Record t := mk {
  id : jsstring;
  url : jsstring;
  likes : Z;
  dislikes : Z;
  updatedAt : Z;
  activity : Z;
  comments : list Entry.t
}.
End View.

Module Totals.
Record t := mk { likes : Z; dislikes : Z; comments : Z }.
End Totals.

Module Feed.
Record t := mk {
  totals : Totals.t;
  photos : list View.t;
  nextCursor : Z
}.
End Feed.

(** [feedState], with the number of readings made of the clock and of the
    random source, and the number of photo objects allocated. *)
Record State := mkState {
  photos : list Photo;
  clockReads : nat;
  randomReads : nat;
  allocated : nat
}.

Definition set_photos (v : list Photo) (s : State) : State :=
  mkState v (clockReads s) (randomReads s) (allocated s).

(** ** Computations *)

Inductive exn :=
| EmptyInput   (* new Error('Comment text is required.') *)
| TypeError.   (* a property of [undefined] was read *)

Inductive result (A : Type) :=
| Ok (a : A)
| Throw (e : exn).
Arguments Ok {A} a.
Arguments Throw {A} e.

Definition M (A : Type) : Type := State -> result A * State.

Definition ret {A : Type} (a : A) : M A := fun s => (Ok a, s).

Definition throw {A : Type} (e : exn) : M A := fun s => (Throw e, s).

Definition bind {A B : Type} (m : M A) (k : A -> M B) : M B :=
  fun s =>
    match m s with
    | (Ok a, s') => k a s'
    | (Throw e, s') => (Throw e, s')
    end.

Notation "x <- m ;; k" := (bind m (fun x => k))
  (at level 61, m at next level, right associativity).
Notation "m ;;; k" := (bind m (fun _ => k))
  (at level 61, right associativity).

Definition get_photos : M (list Photo) := fun s => (Ok (photos s), s).

Definition modify_photos (f : list Photo -> list Photo) : M unit :=
  fun s => (Ok tt, set_photos (f (photos s)) s).

(** Reading and writing through a reference to a stored photo. *)
Definition read_photo (i : nat) : M Photo :=
  fun s =>
    match nth_error (photos s) i with
    | Some p => (Ok p, s)
    | None => (Throw TypeError, s)
    end.

Definition write_photo (i : nat) (f : Photo -> Photo) : M unit :=
  modify_photos (update_nth i f).

(** ** Serializer and ranker *)

Definition serializePhoto (photo : Photo) : View.t :=
  {| View.id := id photo;
     View.url := url photo;
     View.likes := likes photo;
     View.dislikes := dislikes photo;
     View.updatedAt := updatedAt photo;
     View.activity :=
       likes photo + dislikes photo + Z.of_nat (List.length (comments photo));
     View.comments := rev (slice_from (comments photo) (-6)) |}.

Definition computeTotals (l : list Photo) : Totals.t :=
  fold_left
    (fun acc photo =>
       {| Totals.likes := Totals.likes acc + likes photo;
          Totals.dislikes := Totals.dislikes acc + dislikes photo;
          Totals.comments :=
            Totals.comments acc + Z.of_nat (List.length (comments photo)) |})
    l
    {| Totals.likes := 0; Totals.dislikes := 0; Totals.comments := 0 |}.

(** The comparator that [getFeed] hands to [sort]. *)
Definition compareFn (a b : Photo) : Z :=
  let activityA := likes a + dislikes a + Z.of_nat (List.length (comments a)) in
  let activityB := likes b + dislikes b + Z.of_nat (List.length (comments b)) in
  if activityB =? activityA then updatedAt b - updatedAt a
  else activityB - activityA.

(** [Array.prototype.sort] with a comparator.  ECMAScript requires the sort
    to be stable: [a] comes before [b] when [cmp a b < 0], after it when
    [cmp a b > 0], and elements that compare equal keep their order.  For a
    consistent comparator this fixes the result, whatever algorithm the
    engine runs; the model computes it by stable insertion. *)
Fixpoint sort_insert {A : Type} (cmp : A -> A -> Z) (x : A) (l : list A)
  : list A :=
  match l with
  | [] => [x]
  | y :: l' => if cmp x y <=? 0 then x :: l else y :: sort_insert cmp x l'
  end.

Definition sort {A : Type} (cmp : A -> A -> Z) (l : list A) : list A :=
  fold_right (sort_insert cmp) [] l.

(** The window of [getFeed]: [ordered.slice(cursor, cursor + limit)]
    mapped through the serializer. *)
Definition page (ordered : list Photo) (cursor limit : Z) : list View.t :=
  List.map serializePhoto (slice ordered cursor (cursor + limit)).

(** The activity of a photo, as [getFeed] and [serializePhoto] compute it. *)
Definition activity_of (p : Photo) : Z :=
  likes p + dislikes p + Z.of_nat (List.length (comments p)).

(** [a] may stand before [b] in the feed. *)
Definition ranks_before (a b : Photo) : Prop :=
  activity_of b < activity_of a
  \/ (activity_of a = activity_of b /\ updatedAt b <= updatedAt a).

(** The photos whose activity is [a] and whose time stamp is [u]. *)
Definition has_keys (a u : Z) (p : Photo) : bool :=
  (activity_of p =? a) && (updatedAt p =? u).

(** ** The engine *)

Section Engine.

(** The environment: successive readings of [Date.now()] and of
    [Math.random().toString(16)]. *)
Variable clock : nat -> Z.
Variable random : nat -> jsstring.

Definition Date_now : M Z :=
  fun s =>
    (Ok (clock (clockReads s)),
     mkState (photos s) (S (clockReads s)) (randomReads s) (allocated s)).

Definition Math_random_toString16 : M jsstring :=
  fun s =>
    (Ok (random (randomReads s)),
     mkState (photos s) (clockReads s) (S (randomReads s)) (allocated s)).

(** The identity of a new object. *)
Definition new_object : M nat :=
  fun s =>
    (Ok (allocated s),
     mkState (photos s) (clockReads s) (randomReads s) (S (allocated s))).

Definition createPhoto : M Photo :=
  now <- Date_now ;;
  rnd <- Math_random_toString16 ;;
  stamp <- Date_now ;;
  r <- new_object ;;
  ret {| ref := r;
         id := js "cat-" ++ number_toString now ++ js "-" ++ slice rnd 2 8;
         url := CAT_URL;
         likes := 0;
         dislikes := 0;
         comments := [];
         updatedAt := stamp |}.

(** The [while] loop of [ensurePhotos]; every turn makes the array one
    longer, so [fuel] bounds the number of turns. *)
Fixpoint ensurePhotos_loop (fuel : nat) (minCount : Z) : M unit :=
  match fuel with
  | O => ret tt
  | S fuel' =>
      ps <- get_photos ;;
      if Z.of_nat (List.length ps) <? minCount
      then (p <- createPhoto ;;
            modify_photos (fun l => l ++ [p]) ;;;
            ensurePhotos_loop fuel' minCount)
      else ret tt
  end.

Definition ensurePhotos (minCount : Z) : M unit :=
  ps <- get_photos ;;
  ensurePhotos_loop (Z.to_nat (minCount - Z.of_nat (List.length ps))) minCount.

(** [!photoId]: [undefined] and the empty string are falsy. *)
Definition falsy (photoId : option jsstring) : bool :=
  match photoId with
  | None => true
  | Some [] => true
  | Some (_ :: _) => false
  end.

(** The result is a reference to a stored photo, or [None] for
    [undefined] (the first element of an empty array). *)
Definition getOrCreatePhoto (photoId : option jsstring) : M (option nat) :=
  match photoId with
  | None | Some [] =>
      ps <- get_photos ;;
      ret (match ps with [] => None | _ :: _ => Some O end)
  | Some pid =>
      ps <- get_photos ;;
      match findIndex (fun photo => str_eqb (id photo) pid) ps with
      | Some existing => ret (Some existing)
      | None =>
          photo <- createPhoto ;;
          modify_photos (fun l => set_id pid photo :: l) ;;;
          ret (Some O)
      end
  end.

Definition addReaction (action : jsstring) (photoId : option jsstring)
  : M nat :=
  r <- getOrCreatePhoto photoId ;;
  match r with
  | None => throw TypeError
  | Some photo =>
      (if str_eqb action (js "dislike")
       then write_photo photo (fun p => set_dislikes (dislikes p + 1) p)
       else write_photo photo (fun p => set_likes (likes p + 1) p)) ;;;
      now <- Date_now ;;
      write_photo photo (set_updatedAt now) ;;;
      ret photo
  end.

Definition push_comment (entry : Entry.t) (p : Photo) : Photo :=
  set_comments (comments p ++ [entry]) p.

(** [photo.comments.shift()] under its guard. *)
Definition shift_if_over (p : Photo) : Photo :=
  if MAX_COMMENTS_PER_PHOTO <? Z.of_nat (List.length (comments p))
  then set_comments (tl (comments p)) p
  else p.

Definition addComment (text : jsstring) (photoId : option jsstring)
  : M nat :=
  let cleanText := sanitizeText text in
  match cleanText with
  | [] => throw EmptyInput
  | _ :: _ =>
      r <- getOrCreatePhoto photoId ;;
      now <- Date_now ;;
      rnd <- Math_random_toString16 ;;
      match r with
      | None => throw TypeError
      | Some photo =>
          p <- read_photo photo ;;
          instant <- Date_now ;;
          let entry :=
            {| Entry.id := number_toString now ++ js "-" ++ slice_from rnd 2;
               Entry.text := cleanText;
               Entry.photoId := id p;
               Entry.timestamp := instant |} in
          write_photo photo (push_comment entry) ;;;
          write_photo photo shift_if_over ;;;
          stamp <- Date_now ;;
          write_photo photo (set_updatedAt stamp) ;;;
          ret photo
      end
  end.

Definition getFeed (cursor limit : Z) : M Feed.t :=
  ensurePhotos (cursor + limit + 2) ;;;
  ps <- get_photos ;;
  let ordered := sort compareFn ps in
  ret {| Feed.totals := computeTotals ordered;
         Feed.photos := page ordered cursor limit;
         Feed.nextCursor := cursor + limit |}.

(** ** The request handlers *)

(** A request as the handlers see it once the body or the query is parsed:
    [photoId] is [None] when the field is not a string; a pagination
    parameter is [None] when it is absent or not a number. *)
Inductive request :=
| PostLike (action : jsstring) (photoId : option jsstring)
| PostComment (text : jsstring) (photoId : option jsstring)
| GetFeed (cursor limit : option Z).

Inductive response :=
| Created (photo : View.t) (totals : Totals.t)
| FeedPage (feed : Feed.t)
| BadRequest (e : exn).

(** [Number(v) || d]: zero and [NaN] give the default. *)
Definition number_or (v : option Z) (d : Z) : Z :=
  match v with
  | Some z => if z =? 0 then d else z
  | None => d
  end.

Definition respond_photo (m : M nat) : State -> response * State :=
  fun s =>
    match m s with
    | (Ok photo, s') =>
        match nth_error (photos s') photo with
        | Some p => (Created (serializePhoto p) (computeTotals (photos s')), s')
        | None => (BadRequest TypeError, s')
        end
    | (Throw e, s') => (BadRequest e, s')
    end.

Definition handle (r : request) : State -> response * State :=
  match r with
  | PostLike action photoId =>
      let action :=
        if str_eqb action (js "dislike") then js "dislike" else js "like" in
      respond_photo (addReaction action photoId)
  | PostComment text photoId =>
      let text := sanitizeText text in
      respond_photo (addComment text photoId)
  | GetFeed cursor limit =>
      fun s =>
        match getFeed (number_or cursor 0) (number_or limit DEFAULT_PAGE_SIZE) s
        with
        | (Ok feed, s') => (FeedPage feed, s')
        | (Throw e, s') => (BadRequest e, s')
        end
  end.

(** The state when the module has been loaded:
    [ensurePhotos(INITIAL_PHOTO_COUNT)] on the empty store. *)
Definition boot : State :=
  snd (ensurePhotos INITIAL_PHOTO_COUNT (mkState [] O O O)).

(** The states of a running server. *)
Inductive reachable : State -> Prop :=
| reachable_boot : reachable boot
| reachable_handle (r : request) (s : State) :
    reachable s -> reachable (snd (handle r s)).

(** [s'] is [s] after some further requests. *)
Inductive later : State -> State -> Prop :=
| later_now (s : State) : later s s
| later_handle (r : request) (s s' : State) :
    later s s' -> later s (snd (handle r s')).

(** The state after a sequence of requests. *)
Definition run (rs : list request) (s : State) : State :=
  fold_left (fun st r => snd (handle r st)) rs s.

(** ** Vocabulary of the specifications *)

(** The object that [createPhoto] builds in state [s], and the state that
    it leaves. *)
Definition created (s : State) : Photo :=
  {| ref := allocated s;
     id := js "cat-" ++ number_toString (clock (clockReads s)) ++ js "-"
           ++ slice (random (randomReads s)) 2 8;
     url := CAT_URL;
     likes := 0;
     dislikes := 0;
     comments := [];
     updatedAt := clock (S (clockReads s)) |}.

Definition after_create (l : list Photo) (s : State) : State :=
  mkState l (S (S (clockReads s))) (S (randomReads s)) (S (allocated s)).

(** What [getOrCreatePhoto] does to the store: nothing, or one new photo
    at the front, carrying the identifier asked for. *)
Inductive resolved (photoId : option jsstring) (s : State)
  : option nat -> State -> Prop :=
| resolved_default :
    falsy photoId = true ->
    resolved photoId s (match photos s with [] => None | _ :: _ => Some O end) s
| resolved_found (pid : jsstring) (i : nat) :
    photoId = Some pid -> pid <> [] ->
    findIndex (fun photo => str_eqb (id photo) pid) (photos s) = Some i ->
    resolved photoId s (Some i) s
| resolved_new (pid : jsstring) :
    photoId = Some pid -> pid <> [] ->
    findIndex (fun photo => str_eqb (id photo) pid) (photos s) = None ->
    resolved photoId s (Some O)
      (after_create (set_id pid (created s) :: photos s) s).

(** The two mutations of a stored photo. *)
Definition react (action : jsstring) (now : Z) (p : Photo) : Photo :=
  set_updatedAt now
    (if str_eqb action (js "dislike") then set_dislikes (dislikes p + 1) p
     else set_likes (likes p + 1) p).

Definition commented (entry : Entry.t) (now : Z) (p : Photo) : Photo :=
  set_updatedAt now (shift_if_over (push_comment entry p)).

Definition tick (l : list Photo) (clocks randoms : nat) (s : State) : State :=
  mkState l (clocks + clockReads s) (randoms + randomReads s) (allocated s).

(** The comment that [addComment] builds for photo [p] after resolving it
    in state [s1]. *)
Definition new_entry (cleanText : jsstring) (p : Photo) (s1 : State)
  : Entry.t :=
  {| Entry.id := number_toString (clock (clockReads s1)) ++ js "-"
                 ++ slice_from (random (randomReads s1)) 2;
     Entry.text := cleanText;
     Entry.photoId := id p;
     Entry.timestamp := clock (S (clockReads s1)) |}.

(** The states that the loop of [ensurePhotos] goes through. *)
Inductive grown : State -> State -> Prop :=
| grown_done (s : State) : grown s s
| grown_push (s s' : State) :
    grown (after_create (photos s ++ [created s]) s) s' -> grown s s'.

End Engine.

(** A photo as [createPhoto] leaves it, before any reaction or comment. *)
Definition blank (p : Photo) : Prop :=
  likes p = 0 /\ dislikes p = 0 /\ comments p = [] /\ id p <> [].

(** Objects allocated one after the other, from number [a] up to [a']. *)
Inductive newborns : nat -> list Photo -> nat -> Prop :=
| newborns_nil (a : nat) : newborns a [] a
| newborns_cons (a a' : nat) (p : Photo) (l : list Photo) :
    ref p = a -> blank p -> newborns (S a) l a' -> newborns a (p :: l) a'.

(** What a request may do to one stored photo. *)
Inductive touched : Photo -> Photo -> Prop :=
| touched_not (p : Photo) : touched p p
| touched_react (action : jsstring) (now : Z) (p : Photo) :
    touched p (react action now p)
| touched_comment (entry : Entry.t) (now : Z) (p : Photo) :
    touched p (commented entry now p).

(** What a request may do to the store: photos [front] are put before the
    stored ones and photos [back] after them, all new, and photos are
    touched in place. *)
Definition evolved (front back : list Photo) (s s' : State) : Prop :=
  Forall2 touched (front ++ photos s ++ back) (photos s')
  /\ newborns (allocated s) (front ++ back) (allocated s')
  /\ (List.length front <= 1)%nat
  /\ (front <> [] -> back = [])
  /\ Forall (fun p => ~ In (id p) (List.map id (photos s))) front.

(** The comment ledger is within its bound. *)
Definition within_cap (p : Photo) : Prop :=
  Z.of_nat (List.length (comments p)) <= MAX_COMMENTS_PER_PHOTO.

(** The invariant of the store: ledgers within their bound, no empty
    identifier, every object stored once and allocated before now. *)
Definition store_ok (s : State) : Prop :=
  Forall within_cap (photos s)
  /\ Forall (fun p => id p <> []) (photos s)
  /\ NoDup (List.map ref (photos s))
  /\ Forall (fun p => (ref p < allocated s)%nat) (photos s).

(** The object that identifier [x] resolves to:
    [feedState.photos.find(photo => photo.id === x)]. *)
Definition owner (x : jsstring) (s : State) : option nat :=
  option_map ref (find (fun photo => str_eqb (id photo) x) (photos s)).

(** ** Arrays as objects

    [serializePhoto] works on arrays with [slice], which builds a new
    array, and [reverse], which rearranges an array in place.  To tell the
    two apart an array is an address into a heap of arrays; the engine
    itself keeps each ledger inside its photo, which is what this model
    justifies. *)
Definition heap := list (list Entry.t).

Definition array_at (h : heap) (a : nat) : list Entry.t := nth a h [].

Definition array_new (v : list Entry.t) (h : heap) : nat * heap :=
  (List.length h, h ++ [v]).

(** [[...arr]] *)
Definition array_spread (a : nat) (h : heap) : nat * heap :=
  array_new (array_at h a) h.

(** [arr.slice(start)] *)
Definition array_slice_from (a : nat) (start : Z) (h : heap) : nat * heap :=
  array_new (slice_from (array_at h a) start) h.

(** [arr.reverse()] *)
Definition array_reverse (a : nat) (h : heap) : nat * heap :=
  (a, update_nth a (@rev Entry.t) h).

(** [[...photo.comments].slice(-6).reverse()], with the ledger at address
    [ledger]. *)
Definition serializePhoto_comments (ledger : nat) (h : heap) : nat * heap :=
  let (copy, h1) := array_spread ledger h in
  let (tail, h2) := array_slice_from copy (-6) h1 in
  array_reverse tail h2.

(** ** Sample environments and stores *)

(** A clock that advances by a millisecond at every reading, and a random
    source that keeps returning one value. *)
Definition sample_clock (n : nat) : Z := 1700000000000 + Z.of_nat n.
Definition sample_random (n : nat) : jsstring := js "0.8f3a2bc91d4e".

(** A clock that stands still while it is read, and a random source whose
    first two values agree in the six digits that [createPhoto] keeps. *)
Definition still_clock (n : nat) : Z := 1700000000000.
Definition repeating_random (n : nat) : jsstring :=
  match n with
  | O => js "0.5c21e07ab31f"
  | S O => js "0.5c21e0d4409a"
  | S (S k) => js "0." ++ number_toString (100000 + Z.of_nat k)
  end.

Definition sample_photo (r : nat) (name : string) (l d : Z) (at_ : Z) : Photo :=
  {| ref := r; id := js name; url := CAT_URL; likes := l; dislikes := d;
     comments := []; updatedAt := at_ |}.

Definition sample_items : list Photo :=
  [ sample_photo 0 "a" 5 0 10; sample_photo 1 "b" 3 1 20;
    sample_photo 2 "c" 0 0 30 ].

Definition sample_store : State := mkState sample_items 6 3 3.

(** A store that is not in ranking order: "d" and "b" have the same
    activity and "d" was updated later; "c" and "e" agree on both keys. *)
Definition shuffled_items : list Photo :=
  [ sample_photo 0 "c" 0 0 30; sample_photo 1 "a" 5 0 10;
    sample_photo 2 "b" 3 1 20; sample_photo 3 "d" 2 2 25;
    sample_photo 4 "e" 0 0 30 ].

Definition shuffled_store : State := mkState shuffled_items 10 5 5.

(** A photo with eight comments, numbered by their time stamps. *)
Definition sample_entry (n : Z) : Entry.t :=
  {| Entry.id := number_toString n ++ js "-8f3a2bc91d4e";
     Entry.text := js "hi";
     Entry.photoId := js "busy";
     Entry.timestamp := n |}.

Definition busy_photo : Photo :=
  {| ref := 0; id := js "busy"; url := CAT_URL; likes := 2; dislikes := 1;
     comments := List.map sample_entry [1; 2; 3; 4; 5; 6; 7; 8];
     updatedAt := 8 |}.

(** ** Vocabulary of the further properties *)

Definition Zsum (l : list Z) : Z := fold_right Z.add 0 l.

Definition ledger_size (p : Photo) : Z :=
  Z.of_nat (List.length (comments p)).

(** A photo as [createPhoto] returns it. *)
Definition born (p : Photo) : Prop :=
  url p = CAT_URL /\ likes p = 0 /\ dislikes p = 0 /\ comments p = []
  /\ firstn 4 (id p) = js "cat-".

(** The code units of a string that are not white space. *)
Definition visible (s : jsstring) : jsstring :=
  filter (fun c => negb (is_space c)) s.

(** White space occurs in [s] only as single spaces (U+0020); [prev]
    tells that the code unit before [s] is white space. *)
Fixpoint collapsed (prev : bool) (s : jsstring) : bool :=
  match s with
  | [] => true
  | c :: s' =>
      if is_space c
      then (c =? 32)%N && negb prev && collapsed true s'
      else collapsed false s'
  end.

(** A text of 239 letters, a space and one more letter. *)
Definition long_text : jsstring := repeat 97%N 239 ++ js " b".

(** A comment as the server keeps it on photo [p]: it names the photo and
    its text is not empty and is left as it is by [sanitizeText]. *)
Definition entry_ok (p : Photo) (e : Entry.t) : Prop :=
  Entry.photoId e = id p
  /\ Entry.text e <> []
  /\ sanitizeText (Entry.text e) = Entry.text e.

(** A photo as the server keeps it. *)
Definition tidy (p : Photo) : Prop :=
  url p = CAT_URL /\ 0 <= likes p /\ 0 <= dislikes p
  /\ Forall (entry_ok p) (comments p).

(** The order of two entries of a feed page. *)
Definition view_ranks_before (a b : View.t) : Prop :=
  View.activity b < View.activity a
  \/ (View.activity a = View.activity b
      /\ View.updatedAt b <= View.updatedAt a).

(** [getOrCreatePhoto] will create a photo: the identifier is a non-empty
    string that no stored photo carries. *)
Definition unknown (photoId : option jsstring) (s : State) : bool :=
  match photoId with
  | Some (c :: pid) =>
      negb (existsb (fun photo => str_eqb (id photo) (c :: pid)) (photos s))
  | _ => false
  end.

(** * Properties *)

(** ** Slices *)

Lemma slice_nonneg {A : Type} (l : list A) (a b : Z) :
  0 <= a -> a <= b ->
  slice l a b = firstn (Z.to_nat (b - a)) (skipn (Z.to_nat a) l).
Proof.
  intros Ha Hab. unfold slice, rel_index.
  set (len := Z.of_nat (List.length l)).
  assert (Hlen : 0 <= len) by (unfold len; lia).
  destruct (a <? 0) eqn:Ea; [apply Z.ltb_lt in Ea; lia|].
  destruct (b <? 0) eqn:Eb; [apply Z.ltb_lt in Eb; lia|].
  destruct (Z.le_gt_cases len a) as [Hge | Hlt].
  - rewrite (skipn_all2 l (n := Z.to_nat (Z.min a len)))
      by (unfold len in *; lia).
    rewrite (skipn_all2 l (n := Z.to_nat a)) by (unfold len in *; lia).
    now rewrite !firstn_nil.
  - replace (Z.min a len) with a by lia.
    destruct (Z.le_gt_cases b len) as [Hb | Hb].
    + now replace (Z.min b len) with b by lia.
    + replace (Z.min b len) with len by lia.
      rewrite !firstn_all2; trivial; rewrite length_skipn; unfold len in *; lia.
Qed.

Lemma length_slice_nonneg {A : Type} (l : list A) (a b : Z) :
  0 <= a -> a <= b ->
  Z.of_nat (List.length (slice l a b))
  = Z.min (b - a) (Z.max 0 (Z.of_nat (List.length l) - a)).
Proof.
  intros Ha Hab. rewrite slice_nonneg by assumption.
  rewrite length_firstn, length_skipn. lia.
Qed.

(** [slice(-k)] keeps the last [k] elements. *)
Lemma slice_from_last {A : Type} (l : list A) (k : Z) :
  0 < k ->
  slice_from l (- k) = skipn (List.length l - Z.to_nat k) l.
Proof.
  intros Hk. unfold slice_from, slice, rel_index.
  set (len := Z.of_nat (List.length l)).
  assert (Hlen : 0 <= len) by (unfold len; lia).
  destruct (- k <? 0) eqn:Ek; [|apply Z.ltb_ge in Ek; lia].
  destruct (len <? 0) eqn:El; [apply Z.ltb_lt in El; lia|].
  replace (Z.min len len) with len by lia.
  replace (Z.to_nat (Z.max (len + - k) 0))
    with (List.length l - Z.to_nat k)%nat by (unfold len; lia).
  apply firstn_all2. rewrite length_skipn. unfold len. lia.
Qed.

(** ** Text normalisation *)

Lemma replace_spaces_blank (s : jsstring) :
  forallb is_space s = true ->
  replace_spaces true s = []
  /\ (replace_spaces false s = [] \/ replace_spaces false s = [32%N]).
Proof.
  induction s as [|c s IH]; simpl; intros H.
  - auto.
  - apply andb_true_iff in H as [Hc Hs]. rewrite Hc.
    destruct (IH Hs) as [Ht _]. rewrite Ht. auto.
Qed.

Lemma replace_spaces_keeps (c : jschar) (s : jsstring) (b : bool) :
  is_space c = false -> In c s -> In c (replace_spaces b s).
Proof.
  intros Hc. revert b.
  induction s as [|x s IH]; simpl; intros b Hin; [contradiction|].
  destruct Hin as [-> | Hin].
  - rewrite Hc. now left.
  - destruct (is_space x); [destruct b|]; simpl; auto.
Qed.

Lemma trimStart_keeps (c : jschar) (s : jsstring) :
  is_space c = false -> In c s -> In c (trimStart s).
Proof.
  intros Hc. induction s as [|x s IH]; simpl; intros Hin; [contradiction|].
  destruct (is_space x) eqn:Ex; [|exact Hin].
  destruct Hin as [-> | Hin]; [congruence | auto].
Qed.

Lemma trim_keeps (c : jschar) (s : jsstring) :
  is_space c = false -> In c s -> In c (trim s).
Proof.
  intros Hc Hin. unfold trim, trimEnd.
  apply -> in_rev. apply trimStart_keeps; trivial.
  apply -> in_rev. now apply trimStart_keeps.
Qed.

Lemma not_blank_has_char (s : jsstring) :
  forallb is_space s = false -> exists c, In c s /\ is_space c = false.
Proof.
  induction s as [|x s IH]; simpl; [discriminate|].
  destruct (is_space x) eqn:Ex; simpl; intros H.
  - destruct (IH H) as (c & Hin & Hc). exists c. auto.
  - exists x. auto.
Qed.

Lemma sanitizeText_firstn (text : jsstring) :
  sanitizeText text = firstn 240 (trim (replace_spaces false text)).
Proof.
  unfold sanitizeText, MAX_COMMENT_LENGTH.
  rewrite slice_nonneg by lia. reflexivity.
Qed.

Lemma sanitizeText_empty_iff (text : jsstring) :
  sanitizeText text = [] <-> forallb is_space text = true.
Proof.
  rewrite sanitizeText_firstn. split.
  - intros H. destruct (forallb is_space text) eqn:E; trivial.
    destruct (not_blank_has_char _ E) as (c & Hin & Hc).
    assert (Hk : In c (trim (replace_spaces false text)))
      by (apply trim_keeps; trivial; now apply replace_spaces_keeps).
    destruct (trim (replace_spaces false text)); [contradiction|].
    discriminate H.
  - intros H. destruct (replace_spaces_blank _ H) as [_ [-> | ->]]; reflexivity.
Qed.

Lemma sanitizeText_length (text : jsstring) :
  Z.of_nat (List.length (sanitizeText text)) <= MAX_COMMENT_LENGTH.
Proof.
  rewrite sanitizeText_firstn. unfold MAX_COMMENT_LENGTH.
  pose proof (firstn_le_length 240 (trim (replace_spaces false text))). lia.
Qed.

(** ** Lists updated in place *)

Lemma str_eqb_eq (a b : jsstring) : str_eqb a b = true <-> a = b.
Proof.
  revert b. induction a as [|x a IH]; destruct b as [|y b]; simpl;
    try (split; [discriminate | congruence]); [tauto|].
  rewrite andb_true_iff, N.eqb_eq, IH. split.
  - intros [-> ->]. reflexivity.
  - intros H. injection H. auto.
Qed.

Lemma str_eqb_neq (a b : jsstring) : str_eqb a b = false <-> a <> b.
Proof.
  rewrite <- str_eqb_eq. destruct (str_eqb a b); split; congruence.
Qed.

Lemma nth_error_update_nth_eq {A : Type} (i : nat) (f : A -> A) (l : list A) :
  nth_error (update_nth i f l) i = option_map f (nth_error l i).
Proof.
  revert i. induction l as [|x l IH]; intros [|i]; simpl; auto.
Qed.

Lemma nth_error_update_nth_neq {A : Type} (i j : nat) (f : A -> A)
  (l : list A) :
  i <> j -> nth_error (update_nth i f l) j = nth_error l j.
Proof.
  revert i j. induction l as [|x l IH]; intros [|i] [|j] H; simpl; auto;
    congruence.
Qed.

Lemma Forall2_update_nth {A : Type} (R : A -> A -> Prop) (i : nat)
  (f : A -> A) (l : list A) :
  (forall x, R x x) -> (forall x, R x (f x)) ->
  Forall2 R l (update_nth i f l).
Proof.
  intros Hrefl Hf. revert i.
  induction l as [|x l IH]; intros [|i]; simpl; constructor; auto.
  clear IH. induction l; constructor; auto.
Qed.

Lemma update_nth_compose {A : Type} (i : nat) (f g : A -> A) (l : list A) :
  update_nth i f (update_nth i g l) = update_nth i (fun x => f (g x)) l.
Proof.
  revert i. induction l as [|x l IH]; intros [|i]; simpl; auto.
  now rewrite IH.
Qed.

Lemma findIndex_Some {A : Type} (f : A -> bool) (l : list A) (i : nat) :
  findIndex f l = Some i ->
  exists x, nth_error l i = Some x /\ f x = true
            /\ forall j y, (j < i)%nat -> nth_error l j = Some y -> f y = false.
Proof.
  revert i. induction l as [|x l IH]; simpl; intros i H; [discriminate|].
  destruct (f x) eqn:Ex.
  - injection H as <-. exists x. repeat split; trivial. intros j y Hj. lia.
  - destruct (findIndex f l) as [k|]; [|discriminate].
    injection H as <-. destruct (IH k eq_refl) as (z & Hz & Hfz & Hlt).
    exists z. repeat split; trivial.
    intros [|j] y Hj Hy; simpl in Hy.
    + congruence.
    + apply (Hlt j); trivial. lia.
Qed.

Lemma findIndex_None {A : Type} (f : A -> bool) (l : list A) :
  findIndex f l = None <-> forall x, In x l -> f x = false.
Proof.
  induction l as [|x l IH]; simpl.
  - split; [intros _ y [] | reflexivity].
  - destruct (f x) eqn:Ex.
    + split; [discriminate|]. intros H. rewrite (H x) in Ex; auto. discriminate.
    + destruct (findIndex f l); simpl.
      * split; [discriminate|]. intros H.
        apply proj2 in IH. discriminate IH. auto.
      * split; trivial. intros _ y [<- | Hy]; trivial.
        now apply (proj1 IH).
Qed.

(** ** The engine, operation by operation *)

Section EngineFacts.

Variable clock : nat -> Z.
Variable random : nat -> jsstring.


Lemma createPhoto_eq (s : State) :
  createPhoto clock random s
  = (Ok (created clock random s), after_create (photos s) s).
Proof. reflexivity. Qed.

Lemma getOrCreatePhoto_falsy (photoId : option jsstring) (s : State) :
  falsy photoId = true ->
  getOrCreatePhoto clock random photoId s
  = (Ok (match photos s with [] => None | _ :: _ => Some O end), s).
Proof.
  destruct photoId as [[|c pid]|]; simpl; intros H; try discriminate;
    reflexivity.
Qed.

Lemma getOrCreatePhoto_found (pid : jsstring) (s : State) (i : nat) :
  pid <> [] ->
  findIndex (fun photo => str_eqb (id photo) pid) (photos s) = Some i ->
  getOrCreatePhoto clock random (Some pid) s = (Ok (Some i), s).
Proof.
  intros Hne Hi. destruct pid as [|c pid]; [congruence|].
  unfold getOrCreatePhoto, bind, get_photos. rewrite Hi. reflexivity.
Qed.

Lemma getOrCreatePhoto_new (pid : jsstring) (s : State) :
  pid <> [] ->
  findIndex (fun photo => str_eqb (id photo) pid) (photos s) = None ->
  getOrCreatePhoto clock random (Some pid) s
  = (Ok (Some O),
     after_create (set_id pid (created clock random s) :: photos s) s).
Proof.
  intros Hne Hi. destruct pid as [|c pid]; [congruence|].
  unfold getOrCreatePhoto, bind, get_photos. rewrite Hi. reflexivity.
Qed.


Lemma getOrCreatePhoto_resolved (photoId : option jsstring) (s : State) :
  exists r s',
    getOrCreatePhoto clock random photoId s = (Ok r, s')
    /\ resolved clock random photoId s r s'.
Proof.
  destruct (falsy photoId) eqn:Ef.
  - eexists _, _. split; [apply getOrCreatePhoto_falsy; exact Ef|].
    now constructor.
  - destruct photoId as [pid|]; [|discriminate].
    assert (Hne : pid <> []) by (intros ->; discriminate).
    destruct (findIndex (fun photo => str_eqb (id photo) pid) (photos s))
      as [i|] eqn:Ei.
    + eexists _, _. split; [apply getOrCreatePhoto_found; eassumption|].
      now apply resolved_found with pid.
    + eexists _, _. split; [apply getOrCreatePhoto_new; assumption|].
      now apply resolved_new.
Qed.

Lemma resolved_in_range (photoId : option jsstring) (s s' : State) (i : nat) :
  resolved clock random photoId s (Some i) s' ->
  exists p, nth_error (photos s') i = Some p.
Proof.
  inversion 1; subst.
  - destruct (photos s') as [|p l]; [discriminate|].
    injection H0 as <-. now exists p.
  - destruct (findIndex_Some _ _ _ H3) as (p & Hp & _). now exists p.
  - now eexists.
Qed.

Lemma resolved_nonempty (photoId : option jsstring) (s s' : State)
  (r : option nat) :
  photos s <> [] -> resolved clock random photoId s r s' ->
  exists i, r = Some i.
Proof.
  intros Hne H. inversion H; subst; eauto.
  destruct (photos s'); [congruence | eauto].
Qed.


Lemma addReaction_eq (action : jsstring) (photoId : option jsstring)
  (s s1 : State) (i : nat) :
  getOrCreatePhoto clock random photoId s = (Ok (Some i), s1) ->
  addReaction clock random action photoId s
  = (Ok i,
     tick (update_nth i (react action (clock (clockReads s1))) (photos s1))
          1 0 s1).
Proof.
  intros H. unfold addReaction, bind. rewrite H.
  unfold react, tick. destruct (str_eqb action (js "dislike")); cbn;
    now rewrite update_nth_compose.
Qed.

Lemma addReaction_undefined (action : jsstring) (photoId : option jsstring)
  (s s1 : State) :
  getOrCreatePhoto clock random photoId s = (Ok None, s1) ->
  addReaction clock random action photoId s = (Throw TypeError, s1).
Proof. intros H. unfold addReaction, bind. now rewrite H. Qed.


Lemma addComment_eq (text : jsstring) (photoId : option jsstring)
  (s s1 : State) (i : nat) (p : Photo) :
  sanitizeText text <> [] ->
  getOrCreatePhoto clock random photoId s = (Ok (Some i), s1) ->
  nth_error (photos s1) i = Some p ->
  addComment clock random text photoId s
  = (Ok i,
     tick (update_nth i
             (commented (new_entry clock random (sanitizeText text) p s1)
                        (clock (S (S (clockReads s1)))))
             (photos s1))
          3 1 s1).
Proof.
  intros Hne H Hp. unfold addComment.
  destruct (sanitizeText text) as [|c t] eqn:Et; [congruence|].
  unfold bind at 1. rewrite H. cbn.
  unfold read_photo, bind. cbn. rewrite Hp. cbn.
  unfold tick, commented, new_entry. cbn.
  now rewrite !update_nth_compose.
Qed.

Lemma addComment_empty (text : jsstring) (photoId : option jsstring)
  (s : State) :
  sanitizeText text = [] ->
  addComment clock random text photoId s = (Throw EmptyInput, s).
Proof. intros H. unfold addComment. now rewrite H. Qed.

Lemma addComment_undefined (text : jsstring) (photoId : option jsstring)
  (s s1 : State) :
  sanitizeText text <> [] ->
  getOrCreatePhoto clock random photoId s = (Ok None, s1) ->
  addComment clock random text photoId s
  = (Throw TypeError, tick (photos s1) 1 1 s1).
Proof.
  intros Hne H. unfold addComment.
  destruct (sanitizeText text) as [|c t] eqn:Et; [congruence|].
  unfold bind at 1. now rewrite H.
Qed.


Lemma ensurePhotos_loop_spec (fuel : nat) (minCount : Z) (s : State) :
  exists s',
    ensurePhotos_loop clock random fuel minCount s = (Ok tt, s')
    /\ grown clock random s s'
    /\ List.length (photos s')
       = (List.length (photos s)
          + Nat.min fuel
              (Z.to_nat (minCount - Z.of_nat (List.length (photos s)))))%nat.
Proof.
  revert s. induction fuel as [|fuel IH]; intros s.
  - exists s. split; [reflexivity|]. split; [constructor | simpl; lia].
  - cbn [ensurePhotos_loop]. unfold bind at 1, get_photos at 1.
    destruct (Z.of_nat (List.length (photos s)) <? minCount) eqn:E.
    + apply Z.ltb_lt in E.
      destruct (IH (after_create (photos s ++ [created clock random s]) s))
        as (s' & Hrun & Hg & Hlen).
      exists s'. split; [|split].
      * cbn. exact Hrun.
      * now constructor.
      * rewrite Hlen. cbn [photos after_create]. rewrite length_app.
        cbn [List.length]. lia.
    + apply Z.ltb_ge in E. exists s. split; [reflexivity|].
      split; [constructor | lia].
Qed.

Lemma ensurePhotos_spec (minCount : Z) (s : State) :
  exists s',
    ensurePhotos clock random minCount s = (Ok tt, s')
    /\ grown clock random s s'
    /\ Z.of_nat (List.length (photos s'))
       = Z.max minCount (Z.of_nat (List.length (photos s))).
Proof.
  unfold ensurePhotos, bind, get_photos.
  destruct (ensurePhotos_loop_spec
              (Z.to_nat (minCount - Z.of_nat (List.length (photos s))))
              minCount s) as (s' & Hrun & Hg & Hlen).
  exists s'. split; [exact Hrun|]. split; [exact Hg | lia].
Qed.

End EngineFacts.

(** ** The stable sort *)

Section Sort.

Context {A : Type}.
Variable cmp : A -> A -> Z.

Lemma sort_insert_perm (x : A) (l : list A) :
  Permutation (sort_insert cmp x l) (x :: l).
Proof.
  induction l as [|y l IH]; simpl; [reflexivity|].
  destruct (cmp x y <=? 0); [reflexivity|].
  rewrite IH. apply perm_swap.
Qed.

Lemma sort_perm (l : list A) : Permutation (sort cmp l) l.
Proof.
  induction l as [|x l IH]; simpl; [reflexivity|].
  rewrite sort_insert_perm. now constructor.
Qed.

Lemma length_sort (l : list A) : List.length (sort cmp l) = List.length l.
Proof. apply Permutation_length, sort_perm. Qed.

(** A class of elements that pairwise compare as equal is left in its
    original order. *)
Lemma filter_sort_insert (f : A -> bool) (x : A) (l : list A) :
  (forall y, f x = true -> f y = true -> cmp x y <= 0) ->
  filter f (sort_insert cmp x l) = filter f (x :: l).
Proof.
  intros Hclass. induction l as [|y l IH]; [reflexivity|].
  cbn [sort_insert]. destruct (cmp x y <=? 0) eqn:E; [reflexivity|].
  apply Z.leb_gt in E. cbn [filter] in *. rewrite IH.
  destruct (f x) eqn:Ex, (f y) eqn:Ey; trivial.
  specialize (Hclass y eq_refl Ey). lia.
Qed.

Lemma filter_sort (f : A -> bool) (l : list A) :
  (forall x y, f x = true -> f y = true -> cmp x y <= 0) ->
  filter f (sort cmp l) = filter f l.
Proof.
  intros Hclass. induction l as [|x l IH]; [reflexivity|].
  cbn [sort fold_right]. rewrite filter_sort_insert by (apply Hclass).
  fold (sort cmp l). cbn [filter]. now rewrite IH.
Qed.

Hypothesis cmp_total : forall x y, 0 < cmp x y -> cmp y x <= 0.
Hypothesis cmp_trans :
  forall x y z, cmp x y <= 0 -> cmp y z <= 0 -> cmp x z <= 0.

Lemma sort_insert_sorted (x : A) (l : list A) :
  StronglySorted (fun a b => cmp a b <= 0) l ->
  StronglySorted (fun a b => cmp a b <= 0) (sort_insert cmp x l).
Proof.
  induction 1 as [|y l Hs IH Hy]; simpl.
  - repeat constructor.
  - destruct (cmp x y <=? 0) eqn:E.
    + apply Z.leb_le in E. constructor; [now constructor|].
      constructor; trivial.
      eapply Forall_impl; [|exact Hy]. intros z Hz. now apply cmp_trans with y.
    + apply Z.leb_gt in E. constructor; trivial.
      eapply Permutation_Forall; [symmetry; apply sort_insert_perm|].
      constructor; auto.
Qed.

Lemma sort_sorted (l : list A) :
  StronglySorted (fun a b => cmp a b <= 0) (sort cmp l).
Proof.
  induction l as [|x l IH]; simpl; [constructor|].
  now apply sort_insert_sorted.
Qed.

End Sort.

(** The result depends on the elements only through the comparator. *)
Lemma sort_map {A B : Type} (cmpA : A -> A -> Z) (cmpB : B -> B -> Z)
  (g : A -> B) (l : list A) :
  (forall x y, cmpB (g x) (g y) = cmpA x y) ->
  sort cmpB (List.map g l) = List.map g (sort cmpA l).
Proof.
  intros Hg. induction l as [|x l IH]; [reflexivity|].
  cbn [List.map sort fold_right]. fold (sort cmpB (List.map g l)).
  fold (sort cmpA l). rewrite IH. clear IH.
  induction (sort cmpA l) as [|y r IHr]; [reflexivity|].
  cbn [List.map sort_insert]. rewrite Hg.
  destruct (cmpA x y <=? 0); [reflexivity|].
  cbn [List.map]. now rewrite IHr.
Qed.


Lemma compareFn_spec (a b : Photo) :
  compareFn a b <= 0 <-> ranks_before a b.
Proof.
  unfold compareFn, ranks_before, activity_of.
  destruct (Z.eqb_spec
              (likes b + dislikes b + Z.of_nat (List.length (comments b)))
              (likes a + dislikes a + Z.of_nat (List.length (comments a)))); lia.
Qed.

Lemma compareFn_total (x y : Photo) : 0 < compareFn x y -> compareFn y x <= 0.
Proof.
  unfold compareFn.
  destruct (Z.eqb_spec
              (likes y + dislikes y + Z.of_nat (List.length (comments y)))
              (likes x + dislikes x + Z.of_nat (List.length (comments x))));
  destruct (Z.eqb_spec
              (likes x + dislikes x + Z.of_nat (List.length (comments x)))
              (likes y + dislikes y + Z.of_nat (List.length (comments y)))); lia.
Qed.

Lemma compareFn_trans (x y z : Photo) :
  compareFn x y <= 0 -> compareFn y z <= 0 -> compareFn x z <= 0.
Proof.
  rewrite !compareFn_spec. unfold ranks_before. lia.
Qed.

Lemma rank_sorted (l : list Photo) :
  StronglySorted ranks_before (sort compareFn l).
Proof.
  pose proof (sort_sorted compareFn compareFn_total compareFn_trans l) as H.
  induction H as [|x r Hs IH Hx]; constructor; trivial.
  eapply Forall_impl; [|exact Hx]. intros y. apply compareFn_spec.
Qed.


Lemma rank_stable (a u : Z) (l : list Photo) :
  filter (has_keys a u) (sort compareFn l) = filter (has_keys a u) l.
Proof.
  apply filter_sort. intros x y Hx Hy. unfold has_keys in *.
  apply andb_true_iff in Hx as [Hx1 Hx2].
  apply andb_true_iff in Hy as [Hy1 Hy2].
  apply compareFn_spec. unfold ranks_before. lia.
Qed.

Lemma rank_map (g : Photo -> Photo) (l : list Photo) :
  (forall p, activity_of (g p) = activity_of p
             /\ updatedAt (g p) = updatedAt p) ->
  sort compareFn (List.map g l) = List.map g (sort compareFn l).
Proof.
  intros Hg. apply sort_map. intros x y.
  destruct (Hg x) as [Hax Hux], (Hg y) as [Hay Huy].
  unfold compareFn. fold (activity_of (g x)) (activity_of (g y))
    (activity_of x) (activity_of y).
  now rewrite Hax, Hux, Hay, Huy.
Qed.

(** ** The feed *)

Lemma created_born (clock : nat -> Z) (random : nat -> jsstring) (s : State) :
  born (created clock random s).
Proof. repeat split. Qed.

Lemma grown_born (clock : nat -> Z) (random : nat -> jsstring) (s s' : State) :
  grown clock random s s' ->
  exists back,
    photos s' = photos s ++ back
    /\ Forall born back
    /\ clockReads s' = (clockReads s + 2 * List.length back)%nat
    /\ randomReads s' = (randomReads s + List.length back)%nat
    /\ allocated s' = (allocated s + List.length back)%nat.
Proof.
  induction 1 as [s | s s' Hg (back & Hp & Hb & Hc & Hr & Ha)].
  - exists []. rewrite app_nil_r. repeat split; trivial; simpl; lia.
  - exists (created clock random s :: back).
    cbn [photos clockReads randomReads allocated after_create] in *.
    rewrite Hp, <- app_assoc. cbn [List.length app].
    repeat split; trivial; try lia.
    constructor; [apply created_born | exact Hb].
Qed.

Lemma getFeed_eq (clock : nat -> Z) (random : nat -> jsstring)
  (cursor limit : Z) (s : State) :
  exists s',
    ensurePhotos clock random (cursor + limit + 2) s = (Ok tt, s')
    /\ grown clock random s s'
    /\ Z.of_nat (List.length (photos s'))
       = Z.max (cursor + limit + 2) (Z.of_nat (List.length (photos s)))
    /\ getFeed clock random cursor limit s
       = (Ok {| Feed.totals := computeTotals (sort compareFn (photos s'));
                Feed.photos := page (sort compareFn (photos s')) cursor limit;
                Feed.nextCursor := cursor + limit |}, s').
Proof.
  destruct (ensurePhotos_spec clock random (cursor + limit + 2) s)
    as (s' & Hrun & Hg & Hlen).
  exists s'. repeat split; trivial.
  unfold getFeed, bind. now rewrite Hrun.
Qed.

(** What [getFeed] does, told from the store it is given: it appends the
    photos [back] that [ensurePhotos] creates and returns the window of
    the ranking of the store so grown. *)
Lemma getFeed_ranked (clock : nat -> Z) (random : nat -> jsstring)
  (cursor limit : Z) (s : State) :
  exists s' back,
    ensurePhotos clock random (cursor + limit + 2) s = (Ok tt, s')
    /\ photos s' = photos s ++ back
    /\ Forall born back
    /\ Z.of_nat (List.length back)
       = Z.max 0 (cursor + limit + 2 - Z.of_nat (List.length (photos s)))
    /\ getFeed clock random cursor limit s
       = (Ok {| Feed.totals :=
                  computeTotals (sort compareFn (photos s ++ back));
                Feed.photos :=
                  page (sort compareFn (photos s ++ back)) cursor limit;
                Feed.nextCursor := cursor + limit |}, s').
Proof.
  destruct (getFeed_eq clock random cursor limit s)
    as (s' & Hrun & Hg & Hlen & Hf).
  destruct (grown_born clock random s s' Hg) as (back & Hp & Hb & _).
  exists s', back. split; [exact Hrun|]. split; [exact Hp|].
  split; [exact Hb|]. split.
  - rewrite Hp, length_app in Hlen. lia.
  - rewrite Hf, Hp. reflexivity.
Qed.

(** C1: for every cursor >= 0 and limit > 0 the page of a ranked list is
    the contiguous window [cursor, cursor + limit) cut at the end of the
    list, so it holds min(limit, len - cursor) items, none when the cursor
    is at or past the end.  [getFeed], run on a store [s], keeps the
    photos of [s], appends the photos [back] that [ensurePhotos] creates,
    and returns that window of the ranking of [photos s ++ back], with
    min(limit, len - cursor) items for that list; its [nextCursor] is
    cursor + limit in every state. *)
Theorem C1_page_window :
  forall (clock : nat -> Z) (random : nat -> jsstring)
         (items : list Photo) (cursor limit : Z) (s : State),
    0 <= cursor -> 0 < limit ->
    page items cursor limit
    = List.map serializePhoto
        (firstn (Z.to_nat limit) (skipn (Z.to_nat cursor) items))
    /\ Z.of_nat (List.length (page items cursor limit))
       = Z.min limit (Z.max 0 (Z.of_nat (List.length items) - cursor))
    /\ (Z.of_nat (List.length items) <= cursor -> page items cursor limit = [])
    /\ exists feed s' back,
         getFeed clock random cursor limit s = (Ok feed, s')
         /\ ensurePhotos clock random (cursor + limit + 2) s = (Ok tt, s')
         /\ photos s' = photos s ++ back
         /\ Forall born back
         /\ Z.of_nat (List.length back)
            = Z.max 0 (cursor + limit + 2
                       - Z.of_nat (List.length (photos s)))
         /\ Feed.photos feed = page (sort compareFn (photos s')) cursor limit
         /\ Feed.photos feed
            = List.map serializePhoto
                (firstn (Z.to_nat limit)
                   (skipn (Z.to_nat cursor)
                      (sort compareFn (photos s ++ back))))
         /\ Z.of_nat (List.length (Feed.photos feed))
            = Z.min limit
                (Z.max 0 (Z.of_nat (List.length (photos s ++ back)) - cursor))
         /\ Feed.nextCursor feed = cursor + limit.
Proof.
  intros clock random items cursor limit s Hc Hl.
  assert (Hpage : forall l,
             page l cursor limit
             = List.map serializePhoto
                 (firstn (Z.to_nat limit) (skipn (Z.to_nat cursor) l))).
  { intros l. unfold page. rewrite slice_nonneg by lia. do 3 f_equal. lia. }
  assert (Hlen : forall l,
             Z.of_nat (List.length (page l cursor limit))
             = Z.min limit (Z.max 0 (Z.of_nat (List.length l) - cursor))).
  { intros l. unfold page. rewrite length_map, length_slice_nonneg by lia.
    f_equal. lia. }
  split; [apply Hpage|]. split; [apply Hlen|]. split.
  - intros Hend. specialize (Hlen items).
    destruct (page items cursor limit); [reflexivity|].
    simpl in Hlen. lia.
  - destruct (getFeed_ranked clock random cursor limit s)
      as (s' & back & Hrun & Hp & Hb & Hback & Hf).
    eexists _, s', back. split; [exact Hf|]. split; [exact Hrun|].
    split; [exact Hp|]. split; [exact Hb|]. split; [exact Hback|].
    cbn [Feed.photos Feed.nextCursor].
    split; [now rewrite Hp|]. split; [apply Hpage|].
    split; [|reflexivity].
    rewrite Hlen, length_sort. reflexivity.
Qed.

Lemma C1_page_window_witness :
  Z.of_nat (List.length (page sample_items 2 2)) = Z.min 2 (Z.max 0 (3 - 2))
  /\ page sample_items 3 2 = []
  /\ exists feed s',
       getFeed sample_clock sample_random 1 2 shuffled_store = (Ok feed, s')
       /\ photos s' = photos shuffled_store
       /\ List.map View.id (Feed.photos feed) = [js "d"; js "b"]
       /\ Feed.nextCursor feed = 3.
Proof.
  split; [|split].
  - exact (proj1 (proj2 (C1_page_window sample_clock sample_random
                           sample_items 2 2 sample_store
                           ltac:(lia) ltac:(lia)))).
  - apply (proj1 (proj2 (proj2 (C1_page_window sample_clock sample_random
                                  sample_items 3 2 sample_store
                                  ltac:(lia) ltac:(lia))))).
    simpl. lia.
  - destruct (proj2 (proj2 (proj2 (C1_page_window sample_clock sample_random
                                     sample_items 1 2 shuffled_store
                                     ltac:(lia) ltac:(lia)))))
      as (feed & s' & back & Hget & _ & Hp & _ & Hback & _ & Hpage & _ & Hn).
    destruct back as [|b back]; [|discriminate Hback].
    rewrite app_nil_r in Hp, Hpage.
    exists feed, s'. split; [exact Hget|]. split; [exact Hp|].
    split; [rewrite Hpage; reflexivity | exact Hn].
Defined.

(** C2: the ranking is a rearrangement of the list ranked in which every
    photo stands before all photos of lower activity and, among photos of
    equal activity, before those updated earlier; photos that agree on
    both keys keep the order they had (stability); the rearrangement
    depends on the photos only through their activity and time stamp.
    [getFeed], run on a store [s], ranks all photos of [s] together with
    the photos [back] that [ensurePhotos] appends, and cuts its page from
    that ranking. *)
Theorem C2_rank_order :
  forall (l : list Photo),
    Permutation (sort compareFn l) l
    /\ StronglySorted ranks_before (sort compareFn l)
    /\ (forall a u : Z,
          filter (has_keys a u) (sort compareFn l) = filter (has_keys a u) l)
    /\ (forall g : Photo -> Photo,
          (forall p, activity_of (g p) = activity_of p
                     /\ updatedAt (g p) = updatedAt p) ->
          sort compareFn (List.map g l) = List.map g (sort compareFn l))
    /\ (forall (clock : nat -> Z) (random : nat -> jsstring)
               (cursor limit : Z) (s : State),
          exists feed s' back,
            getFeed clock random cursor limit s = (Ok feed, s')
            /\ photos s' = photos s ++ back
            /\ Forall born back
            /\ Z.of_nat (List.length back)
               = Z.max 0 (cursor + limit + 2
                          - Z.of_nat (List.length (photos s)))
            /\ Feed.photos feed
               = List.map serializePhoto
                   (slice (sort compareFn (photos s')) cursor (cursor + limit))
            /\ Feed.photos feed
               = List.map serializePhoto
                   (slice (sort compareFn (photos s ++ back))
                      cursor (cursor + limit))
            /\ Permutation (sort compareFn (photos s ++ back))
                 (photos s ++ back)
            /\ (forall p, In p (photos s) ->
                          In p (sort compareFn (photos s ++ back)))
            /\ StronglySorted ranks_before
                 (sort compareFn (photos s ++ back))
            /\ (forall a u : Z,
                  filter (has_keys a u) (sort compareFn (photos s ++ back))
                  = filter (has_keys a u) (photos s ++ back))).
Proof.
  intros l. split; [apply sort_perm|]. split; [apply rank_sorted|].
  split; [intros a u; apply rank_stable|].
  split; [intros g Hg; now apply rank_map|].
  intros clock random cursor limit s.
  destruct (getFeed_ranked clock random cursor limit s)
    as (s' & back & Hrun & Hp & Hb & Hback & Hf).
  eexists _, s', back. split; [exact Hf|]. split; [exact Hp|].
  split; [exact Hb|]. split; [exact Hback|]. cbn [Feed.photos].
  split; [now rewrite Hp|]. split; [reflexivity|].
  split; [apply sort_perm|]. split.
  - intros p Hin.
    apply (Permutation_in _ (Permutation_sym (sort_perm compareFn _))).
    apply in_or_app. now left.
  - split; [apply rank_sorted | intros a u; apply rank_stable].
Qed.

(** ** The comment ledger: rejection *)

Lemma addComment_cases (clock : nat -> Z) (random : nat -> jsstring)
  (text : jsstring) (photoId : option jsstring) (s : State) :
  (sanitizeText text = []
   /\ addComment clock random text photoId s = (Throw EmptyInput, s))
  \/ (sanitizeText text <> []
      /\ ((photos s = []
           /\ exists s', addComment clock random text photoId s
                         = (Throw TypeError, s'))
          \/ exists i s', addComment clock random text photoId s = (Ok i, s'))).
Proof.
  destruct (sanitizeText text) as [|c t] eqn:Et.
  - left. split; trivial. now apply addComment_empty.
  - right. assert (Hne : sanitizeText text <> []) by congruence.
    rewrite <- Et. split; trivial.
    destruct (getOrCreatePhoto_resolved clock random photoId s)
      as (r & s1 & Hget & Hres).
    destruct r as [i|].
    + right. destruct (resolved_in_range _ _ _ _ _ _ Hres) as (p & Hp).
      exists i. eexists. apply addComment_eq with (s1 := s1) (p := p); assumption.
    + left. split.
      * destruct (photos s) as [|q l] eqn:Eq; trivial.
        assert (Hq : photos s <> []) by congruence.
        destruct (resolved_nonempty _ _ _ _ _ _ Hq Hres). discriminate.
      * eexists. now apply addComment_undefined with (s1 := s1).
Qed.


(** C4: [addComment] throws the empty-input error exactly when the text
    normalises to the empty string, which happens exactly when the text is
    empty or all white space; the normalised text has at most 240 code
    units; the text "  hello   world  " normalises to "hello world" and is
    never rejected as empty, and it is accepted whenever the store holds a
    photo. *)
Theorem C4_addComment_EmptyInput_iff :
  forall (clock : nat -> Z) (random : nat -> jsstring)
         (text : jsstring) (photoId : option jsstring) (s : State),
    (fst (addComment clock random text photoId s) = Throw EmptyInput
     <-> sanitizeText text = [])
    /\ (sanitizeText text = [] <-> forallb is_space text = true)
    /\ Z.of_nat (List.length (sanitizeText text)) <= MAX_COMMENT_LENGTH
    /\ sanitizeText (js "  hello   world  ") = js "hello world"
    /\ fst (addComment clock random (js "  hello   world  ") photoId s)
       <> Throw EmptyInput
    /\ (photos s <> [] ->
        exists i,
          fst (addComment clock random (js "  hello   world  ") photoId s)
          = Ok i).
Proof.
  intros clock random text photoId s.
  assert (Hiff : forall t,
             fst (addComment clock random t photoId s) = Throw EmptyInput
             <-> sanitizeText t = []).
  { intros t.
    destruct (addComment_cases clock random t photoId s)
      as [[He Hrun] | [Hne [[_ [s' Hrun]] | (i & s' & Hrun)]]];
      rewrite Hrun; simpl; split; trivial; try congruence; discriminate. }
  assert (Hhello : sanitizeText (js "  hello   world  ") = js "hello world")
    by reflexivity.
  split; [apply Hiff|]. split; [apply sanitizeText_empty_iff|].
  split; [apply sanitizeText_length|]. split; [exact Hhello|]. split.
  - rewrite Hiff, Hhello. discriminate.
  - intros Hs.
    destruct (addComment_cases clock random (js "  hello   world  ") photoId s)
      as [[He _] | [_ [[He _] | (i & s' & Hrun)]]].
    + rewrite Hhello in He. discriminate.
    + contradiction.
    + exists i. now rewrite Hrun.
Qed.

(** C10: when [addComment] throws the empty-input error the state it
    leaves is the state it was given: no photo was created, no comment
    was added, no time stamp was written and nothing was read from the
    clock or the random source; the same holds of the request handler
    that answers such a comment with an error. *)
Theorem C10_EmptyInput_leaves_state :
  forall (clock : nat -> Z) (random : nat -> jsstring)
         (text : jsstring) (photoId : option jsstring) (s : State),
    (fst (addComment clock random text photoId s) = Throw EmptyInput ->
     snd (addComment clock random text photoId s) = s)
    /\ (fst (handle clock random (PostComment text photoId) s)
        = BadRequest EmptyInput ->
        snd (handle clock random (PostComment text photoId) s) = s).
Proof.
  intros clock random text photoId s.
  assert (Hadd : forall t,
             fst (addComment clock random t photoId s) = Throw EmptyInput ->
             snd (addComment clock random t photoId s) = s).
  { intros t.
    destruct (addComment_cases clock random t photoId s)
      as [[He Hrun] | [Hne [[_ [s' Hrun]] | (i & s' & Hrun)]]];
      rewrite Hrun; simpl; trivial; discriminate. }
  split; [apply Hadd|].
  cbn [handle]. unfold respond_photo.
  specialize (Hadd (sanitizeText text)).
  destruct (addComment clock random (sanitizeText text) photoId s)
    as [[i | e] s'] eqn:Hrun; cbn [fst snd] in *.
  - destruct (nth_error (photos s') i); discriminate.
  - intros He. apply Hadd. congruence.
Qed.

Lemma C10_EmptyInput_leaves_state_witness :
  snd (addComment sample_clock sample_random (js "   ")
         (Some (js "unknown")) sample_store) = sample_store
  /\ snd (handle sample_clock sample_random
            (PostComment (js "   ") (Some (js "unknown"))) sample_store)
     = sample_store.
Proof.
  split.
  - apply (proj1 (C10_EmptyInput_leaves_state sample_clock sample_random
                    (js "   ") (Some (js "unknown")) sample_store)).
    reflexivity.
  - apply (proj2 (C10_EmptyInput_leaves_state sample_clock sample_random
                    (js "   ") (Some (js "unknown")) sample_store)).
    reflexivity.
Defined.

(** ** How requests change the store *)

Lemma touched_frame (p p' : Photo) :
  touched p p' ->
  ref p' = ref p /\ id p' = id p /\ url p' = url p
  /\ likes p <= likes p' /\ dislikes p <= dislikes p'
  /\ (within_cap p -> within_cap p').
Proof.
  intros [q | action now q | entry now q].
  - repeat split; trivial; lia.
  - unfold react. destruct (str_eqb action (js "dislike")); cbn;
      repeat split; trivial; lia.
  - unfold commented, shift_if_over, push_comment, within_cap,
      MAX_COMMENTS_PER_PHOTO.
    cbn [comments set_comments]. rewrite length_app. cbn [List.length].
    destruct (80 <? Z.of_nat (List.length (comments q) + 1)) eqn:E; cbn;
      repeat split; trivial; try lia; intros Hq.
    + apply Z.ltb_lt in E.
      destruct (comments q) as [|e l]; cbn in *; [lia|].
      rewrite length_app. cbn. lia.
    + apply Z.ltb_ge in E. rewrite length_app. cbn. lia.
Qed.

Lemma Forall2_touched_refl (l : list Photo) : Forall2 touched l l.
Proof. induction l; constructor; trivial. constructor. Qed.

Lemma created_newborn (clock : nat -> Z) (random : nat -> jsstring)
  (s : State) :
  ref (created clock random s) = allocated s
  /\ blank (created clock random s).
Proof. repeat split. cbn. discriminate. Qed.

Lemma newborns_refs (a b : nat) (l : list Photo) :
  newborns a l b ->
  List.map ref l = seq a (List.length l) /\ b = (a + List.length l)%nat.
Proof.
  induction 1 as [a | a a' p l Hr Hb Hn [IH1 IH2]]; simpl.
  - split; [reflexivity | lia].
  - rewrite Hr, IH1. split; [reflexivity | lia].
Qed.

Lemma grown_app (clock : nat -> Z) (random : nat -> jsstring) (s s' : State) :
  grown clock random s s' ->
  exists back,
    photos s' = photos s ++ back
    /\ newborns (allocated s) back (allocated s').
Proof.
  induction 1 as [s | s s' Hg (back & Hp & Hn)].
  - exists []. split; [now rewrite app_nil_r | constructor].
  - exists (created clock random s :: back). split.
    + rewrite Hp. cbn [photos after_create]. now rewrite <- app_assoc.
    + destruct (created_newborn clock random s) as [Hr Hb].
      constructor; trivial.
Qed.

Lemma evolved_quiet (s s' : State) (i : nat) (f : Photo -> Photo) :
  (forall p, touched p (f p)) ->
  photos s' = update_nth i f (photos s) ->
  allocated s' = allocated s ->
  evolved [] [] s s'.
Proof.
  intros Hf Hp Ha. unfold evolved. rewrite Hp, Ha, app_nil_r. cbn [app].
  split; [|split; [constructor | split; [simpl; lia | split; [easy | constructor]]]].
  apply Forall2_update_nth; trivial. constructor.
Qed.

Lemma evolved_same (s s' : State) :
  photos s' = photos s -> allocated s' = allocated s -> evolved [] [] s s'.
Proof.
  intros Hp Ha. unfold evolved. rewrite Hp, Ha, app_nil_r. cbn [app].
  split; [apply Forall2_touched_refl|].
  split; [constructor | split; [simpl; lia | split; [easy | constructor]]].
Qed.

(** A photo is resolved and then written through the reference. *)
Lemma evolved_resolved (clock : nat -> Z) (random : nat -> jsstring)
  (photoId : option jsstring) (s s1 s' : State) (i : nat)
  (f : Photo -> Photo) :
  resolved clock random photoId s (Some i) s1 ->
  (forall p, touched p (f p)) ->
  photos s' = update_nth i f (photos s1) ->
  allocated s' = allocated s1 ->
  exists front, evolved front [] s s'.
Proof.
  intros Hres Hf Hp Ha. inversion Hres; subst.
  - exists []. now apply evolved_quiet with i f.
  - exists []. now apply evolved_quiet with i f.
  - exists [set_id pid (created clock random s)].
    unfold evolved. rewrite Hp, Ha, app_nil_r. cbn.
    split; [constructor; [apply Hf | apply Forall2_touched_refl]|].
    split; [|split; [lia | split; [trivial|]]].
    + constructor; [reflexivity | | constructor].
      repeat split; trivial.
    + constructor; [|constructor]. cbn. intros Hin.
      apply in_map_iff in Hin as (q & Hq & Hin).
      match goal with
      | Hnone : findIndex _ _ = None |- _ =>
          rewrite findIndex_None in Hnone; specialize (Hnone q Hin);
          cbn in Hnone; apply str_eqb_neq in Hnone
      end.
      congruence.
Qed.

Lemma snd_respond_photo (m : M nat) (s : State) :
  snd (respond_photo m s) = snd (m s).
Proof.
  unfold respond_photo. destruct (m s) as [[i | e] s']; trivial.
  cbn. destruct (nth_error (photos s') i); reflexivity.
Qed.

Lemma resolved_undefined (clock : nat -> Z) (random : nat -> jsstring)
  (photoId : option jsstring) (s s1 : State) :
  resolved clock random photoId s None s1 -> s1 = s /\ photos s = [].
Proof.
  inversion 1; subst. destruct (photos s1); [auto | discriminate].
Qed.

Lemma react_touched (action : jsstring) (now : Z) :
  forall p, touched p (react action now p).
Proof. intros p. constructor. Qed.

Lemma commented_touched (entry : Entry.t) (now : Z) :
  forall p, touched p (commented entry now p).
Proof. intros p. constructor. Qed.

Lemma addReaction_evolved (clock : nat -> Z) (random : nat -> jsstring)
  (action : jsstring) (photoId : option jsstring) (s : State) :
  exists front,
    evolved front [] s (snd (addReaction clock random action photoId s)).
Proof.
  destruct (getOrCreatePhoto_resolved clock random photoId s)
    as (r & s1 & Hget & Hres).
  destruct r as [i|].
  - rewrite (addReaction_eq _ _ _ _ _ _ _ Hget). cbn [snd].
    eapply evolved_resolved; [exact Hres | apply react_touched | |];
      reflexivity.
  - rewrite (addReaction_undefined _ _ _ _ _ _ Hget). cbn [snd].
    destruct (resolved_undefined _ _ _ _ _ Hres) as [-> _].
    exists []. now apply evolved_same.
Qed.

Lemma addComment_evolved (clock : nat -> Z) (random : nat -> jsstring)
  (text : jsstring) (photoId : option jsstring) (s : State) :
  exists front,
    evolved front [] s (snd (addComment clock random text photoId s)).
Proof.
  destruct (sanitizeText text) as [|c t] eqn:Et.
  - rewrite addComment_empty by assumption. exists []. now apply evolved_same.
  - assert (Hne : sanitizeText text <> []) by congruence.
    destruct (getOrCreatePhoto_resolved clock random photoId s)
      as (r & s1 & Hget & Hres).
    destruct r as [i|].
    + destruct (resolved_in_range _ _ _ _ _ _ Hres) as (p & Hp).
      rewrite (addComment_eq _ _ _ _ _ _ _ _ Hne Hget Hp). cbn [snd].
      eapply evolved_resolved; [exact Hres | apply commented_touched | |];
        reflexivity.
    + rewrite (addComment_undefined _ _ _ _ _ _ Hne Hget). cbn [snd].
      destruct (resolved_undefined _ _ _ _ _ Hres) as [-> _].
      exists []. now apply evolved_same.
Qed.

Lemma getFeed_evolved (clock : nat -> Z) (random : nat -> jsstring)
  (cursor limit : Z) (s : State) :
  exists back,
    photos (snd (getFeed clock random cursor limit s)) = photos s ++ back
    /\ evolved [] back s (snd (getFeed clock random cursor limit s)).
Proof.
  destruct (getFeed_eq clock random cursor limit s) as (s' & _ & Hg & _ & Hf).
  rewrite Hf. cbn [snd].
  destruct (grown_app _ _ _ _ Hg) as (back & Hp & Hn).
  exists back. split; trivial. unfold evolved. cbn [app]. rewrite Hp.
  split; [apply Forall2_touched_refl|].
  split; [exact Hn | split; [simpl; lia | split; [easy | constructor]]].
Qed.

Lemma snd_handle_GetFeed (clock : nat -> Z) (random : nat -> jsstring)
  (cursor limit : option Z) (s : State) :
  snd (handle clock random (GetFeed cursor limit) s)
  = snd (getFeed clock random (number_or cursor 0)
           (number_or limit DEFAULT_PAGE_SIZE) s).
Proof.
  cbn [handle].
  destruct (getFeed clock random (number_or cursor 0)
              (number_or limit DEFAULT_PAGE_SIZE) s) as [[feed | e] s'];
    reflexivity.
Qed.

Lemma handle_evolved (clock : nat -> Z) (random : nat -> jsstring)
  (r : request) (s : State) :
  exists front back, evolved front back s (snd (handle clock random r s)).
Proof.
  destruct r as [action photoId | text photoId | cursor limit].
  - cbn [handle]. rewrite snd_respond_photo.
    destruct (addReaction_evolved clock random
                (if str_eqb action (js "dislike") then js "dislike"
                 else js "like") photoId s) as (front & H).
    now exists front, [].
  - cbn [handle]. rewrite snd_respond_photo.
    destruct (addComment_evolved clock random (sanitizeText text) photoId s)
      as (front & H).
    now exists front, [].
  - rewrite snd_handle_GetFeed.
    destruct (getFeed_evolved clock random (number_or cursor 0)
                (number_or limit DEFAULT_PAGE_SIZE) s) as (back & _ & H).
    now exists [], back.
Qed.

(** ** Invariants of the store *)

Lemma Forall2_touched_maps (l l' : list Photo) :
  Forall2 touched l l' ->
  List.map ref l' = List.map ref l /\ List.map id l' = List.map id l
  /\ List.length l' = List.length l
  /\ (Forall within_cap l -> Forall within_cap l').
Proof.
  induction 1 as [|p p' l l' Ht Hl (IHr & IHi & IHn & IHc)]; simpl.
  - repeat split; trivial.
  - destruct (touched_frame _ _ Ht) as (Hr & Hi & _ & _ & _ & Hc).
    rewrite Hr, Hi, IHr, IHi, IHn. repeat split; trivial.
    intros Hall. inversion Hall; subst. constructor; auto.
Qed.

Lemma newborns_blank (a b : nat) (l : list Photo) :
  newborns a l b -> Forall blank l.
Proof. induction 1; constructor; trivial. Qed.

Lemma blank_within_cap (p : Photo) : blank p -> within_cap p.
Proof.
  intros (_ & _ & Hc & _). unfold within_cap, MAX_COMMENTS_PER_PHOTO.
  rewrite Hc. simpl. lia.
Qed.

Lemma evolved_length (front back : list Photo) (s s' : State) :
  evolved front back s s' ->
  List.length (photos s')
  = (List.length front + List.length (photos s) + List.length back)%nat.
Proof.
  intros (H2 & _). destruct (Forall2_touched_maps _ _ H2) as (_ & _ & Hn & _).
  rewrite Hn, !length_app. lia.
Qed.

Lemma evolved_ok (front back : list Photo) (s s' : State) :
  evolved front back s s' -> store_ok s -> store_ok s'.
Proof.
  intros (H2 & Hn & _ & _ & _) (Hcap & Hid & Hnd & Hlt).
  destruct (Forall2_touched_maps _ _ H2) as (Hr & Hi & _ & Hc).
  pose proof (newborns_blank _ _ _ Hn) as Hb.
  apply Forall_app in Hb as [Hbf Hbb].
  destruct (newborns_refs _ _ _ Hn) as [Hseq Ha].
  rewrite map_app in Hseq.
  assert (Hnew : forall r, In r (List.map ref front ++ List.map ref back) ->
                           (allocated s <= r < allocated s')%nat).
  { intros r Hin. rewrite Hseq in Hin. apply in_seq in Hin. lia. }
  assert (Hold : forall r, In r (List.map ref (photos s)) ->
                           (r < allocated s)%nat).
  { intros r Hin. apply in_map_iff in Hin as (q & <- & Hq).
    rewrite Forall_forall in Hlt. auto. }
  assert (Hle : (allocated s <= allocated s')%nat) by lia.
  repeat split.
  - apply Hc. repeat (apply Forall_app; split); trivial;
      (eapply Forall_impl; [apply blank_within_cap | eassumption]).
  - apply Forall_forall. intros q Hq.
    assert (Hin : In (id q) (List.map id (photos s'))) by now apply in_map.
    rewrite Hi, !map_app, !in_app_iff, !in_map_iff in Hin.
    rewrite Forall_forall in Hbf, Hbb, Hid.
    destruct Hin as [(x & <- & Hx) | [(x & <- & Hx) | (x & <- & Hx)]];
      [apply Hbf | apply Hid | apply Hbb]; trivial.
  - rewrite Hr, !map_app.
    apply Permutation_NoDup
      with (l := List.map ref (photos s)
                 ++ List.map ref front ++ List.map ref back).
    + apply Permutation_app_swap_app.
    + apply NoDup_app; repeat split; trivial.
      * rewrite Hseq. apply seq_NoDup.
      * intros r Hin1 Hin2. specialize (Hold r Hin1).
        specialize (Hnew r Hin2). lia.
  - apply Forall_forall. intros q Hq.
    assert (Hin : In (ref q) (List.map ref (photos s'))) by now apply in_map.
    rewrite Hr, !map_app in Hin.
    apply in_app_or in Hin as [Hin | Hin].
    + specialize (Hnew (ref q) (in_or_app _ _ _ (or_introl Hin))). lia.
    + apply in_app_or in Hin as [Hin | Hin].
      * specialize (Hold _ Hin). lia.
      * specialize (Hnew (ref q) (in_or_app _ _ _ (or_intror Hin))). lia.
Qed.

Section Running.

Variable clock : nat -> Z.
Variable random : nat -> jsstring.

Lemma boot_grown :
  exists back,
    photos (boot clock random) = back
    /\ newborns O back (allocated (boot clock random))
    /\ Z.of_nat (List.length back) = INITIAL_PHOTO_COUNT.
Proof.
  unfold boot.
  destruct (ensurePhotos_spec clock random INITIAL_PHOTO_COUNT
              (mkState [] O O O)) as (s' & Hrun & Hg & Hlen).
  rewrite Hrun. cbn [snd].
  destruct (grown_app _ _ _ _ Hg) as (back & Hp & Hn).
  cbn in Hp, Hn, Hlen. exists back. rewrite Hp. repeat split; trivial.
  rewrite <- Hp, Hlen. reflexivity.
Qed.

Lemma boot_ok : store_ok (boot clock random).
Proof.
  destruct boot_grown as (back & Hp & Hn & _).
  apply evolved_ok with (front := []) (back := back) (s := mkState [] O O O).
  - unfold evolved. cbn. rewrite Hp.
    split; [apply Forall2_touched_refl|].
    split; [exact Hn | split; [lia | split; [easy | constructor]]].
  - repeat split; constructor.
Qed.

Lemma reachable_ok (s : State) : reachable clock random s -> store_ok s.
Proof.
  induction 1 as [|r s Hs IH]; [apply boot_ok|].
  destruct (handle_evolved clock random r s) as (front & back & He).
  now apply evolved_ok with front back s.
Qed.

Lemma handle_length (r : request) (s : State) :
  (List.length (photos s)
   <= List.length (photos (snd (handle clock random r s))))%nat.
Proof.
  destruct (handle_evolved clock random r s) as (front & back & He).
  rewrite (evolved_length _ _ _ _ He). lia.
Qed.

Lemma reachable_length (s : State) :
  reachable clock random s ->
  INITIAL_PHOTO_COUNT <= Z.of_nat (List.length (photos s)).
Proof.
  induction 1 as [|r s Hs IH].
  - destruct boot_grown as (back & Hp & _ & Hlen). rewrite Hp. lia.
  - pose proof (handle_length r s). lia.
Qed.

Lemma later_reachable (s s' : State) :
  reachable clock random s -> later clock random s s' ->
  reachable clock random s'.
Proof.
  intros Hs. induction 1 as [|r s s' Hl IH]; [exact Hs|].
  apply reachable_handle. exact (IH Hs).
Qed.

End Running.

Lemma reachable_run (clock : nat -> Z) (random : nat -> jsstring)
  (rs : list request) (s : State) :
  reachable clock random s -> reachable clock random (run clock random rs s).
Proof.
  revert s. induction rs as [|r rs IH]; intros s Hs; [exact Hs|].
  cbn [run fold_left]. apply IH. now apply reachable_handle.
Qed.

(** ** The comment ledger: the bound *)

Lemma commented_ledger (entry : Entry.t) (now : Z) (p : Photo) :
  within_cap p ->
  comments (commented entry now p)
  = (if Z.of_nat (List.length (comments p)) =? MAX_COMMENTS_PER_PHOTO
     then tl (comments p) ++ [entry]
     else comments p ++ [entry])
  /\ Z.of_nat (List.length (comments (commented entry now p)))
     = Z.min (Z.of_nat (List.length (comments p)) + 1) MAX_COMMENTS_PER_PHOTO.
Proof.
  unfold within_cap, commented, shift_if_over, push_comment,
    MAX_COMMENTS_PER_PHOTO.
  cbn [comments set_comments set_updatedAt]. rewrite length_app.
  cbn [List.length]. intros Hcap.
  destruct (Z.eqb_spec (Z.of_nat (List.length (comments p))) 80) as [E | E].
  - replace (80 <? Z.of_nat (List.length (comments p) + 1)) with true
      by (symmetry; apply Z.ltb_lt; lia).
    cbn [comments]. destruct (comments p) as [|e l];
      cbn [List.length tl app] in *; [lia|].
    split; trivial. cbn [comments set_comments].
    rewrite length_app. cbn [List.length]. lia.
  - replace (80 <? Z.of_nat (List.length (comments p) + 1)) with false
      by (symmetry; apply Z.ltb_ge; lia).
    cbn [comments set_comments]. split; trivial.
    rewrite length_app. cbn [List.length]. lia.
Qed.

(** C3: in every state of the running server every ledger holds at most
    80 comments, whatever requests were served.  An [addComment] that
    succeeds on a store within the bound puts the new comment last; the
    ledger is then one longer, at most 81, and when it is 81 long the
    oldest comment is dropped, so the ledger ends with
    min(length + 1, 80) comments. *)
Theorem C3_ledger_within_cap :
  forall (clock : nat -> Z) (random : nat -> jsstring),
    (forall s, reachable clock random s -> Forall within_cap (photos s))
    /\ (forall text photoId s i s',
          Forall within_cap (photos s) ->
          addComment clock random text photoId s = (Ok i, s') ->
          Forall within_cap (photos s')
          /\ exists s1 p p',
               getOrCreatePhoto clock random photoId s = (Ok (Some i), s1)
               /\ nth_error (photos s1) i = Some p
               /\ nth_error (photos s') i = Some p'
               /\ Z.of_nat (List.length
                              (comments p
                               ++ [new_entry clock random (sanitizeText text) p s1]))
                  <= MAX_COMMENTS_PER_PHOTO + 1
               /\ comments p'
                  = (if Z.of_nat (List.length (comments p))
                        =? MAX_COMMENTS_PER_PHOTO
                     then tl (comments p)
                          ++ [new_entry clock random (sanitizeText text) p s1]
                     else comments p
                          ++ [new_entry clock random (sanitizeText text) p s1])
               /\ Z.of_nat (List.length (comments p'))
                  = Z.min (Z.of_nat (List.length (comments p)) + 1)
                          MAX_COMMENTS_PER_PHOTO).
Proof.
  intros clock random. split.
  - intros s Hs. apply (reachable_ok clock random s Hs).
  - intros text photoId s i s' Hcap Hrun.
    assert (Hne : sanitizeText text <> []).
    { intros He. rewrite (addComment_empty _ _ _ _ _ He) in Hrun.
      discriminate. }
    destruct (getOrCreatePhoto_resolved clock random photoId s)
      as (r & s1 & Hget & Hres).
    destruct r as [j|];
      [|rewrite (addComment_undefined _ _ _ _ _ _ Hne Hget) in Hrun;
        discriminate].
    destruct (resolved_in_range _ _ _ _ _ _ Hres) as (p & Hp).
    rewrite (addComment_eq _ _ _ _ _ _ _ _ Hne Hget Hp) in Hrun.
    injection Hrun as <- <-.
    assert (Hcap1 : Forall within_cap (photos s1)).
    { inversion Hres; subst; trivial.
      cbn [photos after_create]. constructor; trivial.
      unfold within_cap, MAX_COMMENTS_PER_PHOTO. cbn. lia. }
    assert (Hpcap : within_cap p).
    { rewrite Forall_forall in Hcap1. apply Hcap1.
      now apply nth_error_In with j. }
    destruct (commented_ledger
                (new_entry clock random (sanitizeText text) p s1)
                (clock (S (S (clockReads s1)))) p Hpcap) as [Hled Hlen].
    split.
    + cbn [photos tick].
      assert (H2 : Forall2 touched (photos s1)
                     (update_nth j
                        (commented
                           (new_entry clock random (sanitizeText text) p s1)
                           (clock (S (S (clockReads s1)))))
                        (photos s1)))
        by (apply Forall2_update_nth;
            [constructor | apply commented_touched]).
      now apply (Forall2_touched_maps _ _ H2).
    + exists s1, p, (commented (new_entry clock random (sanitizeText text) p s1)
                       (clock (S (S (clockReads s1)))) p).
      split; [exact Hget|]. split; [exact Hp|]. split.
      * cbn [photos tick]. rewrite nth_error_update_nth_eq, Hp. reflexivity.
      * split; [|split; trivial].
        rewrite length_app. cbn [List.length]. unfold within_cap in Hpcap. lia.
Qed.

Lemma C3_ledger_within_cap_witness :
  Forall within_cap
    (photos (run sample_clock sample_random
               (repeat (PostComment (js "hi") None) 85)
               (boot sample_clock sample_random)))
  /\ option_map (fun p => List.length (comments p))
       (nth_error
          (photos (run sample_clock sample_random
                     (repeat (PostComment (js "hi") None) 85)
                     (boot sample_clock sample_random))) 0)
     = Some 80%nat.
Proof.
  split.
  - apply (proj1 (C3_ledger_within_cap sample_clock sample_random)).
    apply reachable_run, reachable_boot.
  - vm_compute. reflexivity.
Defined.

(** ** Growth of the store *)

Lemma number_or_id (z d : Z) : z <> 0 \/ d = 0 -> number_or (Some z) d = z.
Proof.
  unfold number_or. destruct (Z.eqb_spec z 0); intros [H | H]; congruence.
Qed.

(** C9: for every cursor >= 0 and limit > 0, [getFeed] first runs
    [ensurePhotos (cursor + limit + 2)], which leaves at least that many
    photos in the store, and only then ranks and cuts the page, so the
    page holds exactly [limit] photos, also when the request comes through
    the handler; no request makes the store shorter, and the store of a
    running server never has fewer than 18 photos. *)
Theorem C9_feed_grows_store :
  forall (clock : nat -> Z) (random : nat -> jsstring)
         (cursor limit : Z) (s : State),
    0 <= cursor -> 0 < limit ->
    (exists feed s',
       ensurePhotos clock random (cursor + limit + 2) s = (Ok tt, s')
       /\ getFeed clock random cursor limit s = (Ok feed, s')
       /\ handle clock random (GetFeed (Some cursor) (Some limit)) s
          = (FeedPage feed, s')
       /\ cursor + limit + 2 <= Z.of_nat (List.length (photos s'))
       /\ Z.of_nat (List.length (photos s'))
          = Z.max (cursor + limit + 2) (Z.of_nat (List.length (photos s)))
       /\ Feed.photos feed = page (sort compareFn (photos s')) cursor limit
       /\ Z.of_nat (List.length (Feed.photos feed)) = limit)
    /\ (forall r s0,
          (List.length (photos s0)
           <= List.length (photos (snd (handle clock random r s0))))%nat)
    /\ (forall s0, reachable clock random s0 ->
                   INITIAL_PHOTO_COUNT <= Z.of_nat (List.length (photos s0))).
Proof.
  intros clock random cursor limit s Hc Hl.
  split; [|split; [apply handle_length | apply reachable_length]].
  destruct (getFeed_eq clock random cursor limit s)
    as (s' & Hrun & _ & Hlen & Hf).
  eexists _, s'. split; [exact Hrun|]. split; [exact Hf|]. split.
  - cbn [handle]. rewrite !number_or_id by lia. now rewrite Hf.
  - split; [lia|]. split; [exact Hlen|]. split; [reflexivity|].
    cbn [Feed.photos]. unfold page.
    rewrite length_map, length_slice_nonneg, length_sort by lia. lia.
Qed.

Lemma C9_feed_grows_store_witness :
  exists feed s',
    getFeed sample_clock sample_random 20 5 (boot sample_clock sample_random)
    = (Ok feed, s')
    /\ List.length (photos s') = 27%nat
    /\ List.length (Feed.photos feed) = 5%nat.
Proof.
  destruct (proj1 (C9_feed_grows_store sample_clock sample_random 20 5
                     (boot sample_clock sample_random)
                     ltac:(lia) ltac:(lia)))
    as (feed & s' & _ & Hf & _ & _ & Hlen & _ & Hpage).
  exists feed, s'. split; [exact Hf|]. split.
  - apply Nat2Z.inj. rewrite Hlen. vm_compute. reflexivity.
  - apply Nat2Z.inj. rewrite Hpage. reflexivity.
Defined.

(** ** Reactions *)

Lemma react_counts (kind : jsstring) (now : Z) (p : Photo) :
  (kind = js "dislike" ->
   dislikes (react kind now p) = dislikes p + 1
   /\ likes (react kind now p) = likes p)
  /\ (kind <> js "dislike" ->
      likes (react kind now p) = likes p + 1
      /\ dislikes (react kind now p) = dislikes p)
  /\ comments (react kind now p) = comments p
  /\ id (react kind now p) = id p
  /\ updatedAt (react kind now p) = now.
Proof.
  unfold react. destruct (str_eqb kind (js "dislike")) eqn:E.
  - apply str_eqb_eq in E.
    split; [intros _; split; reflexivity|].
    split; [intros Hk; contradiction | repeat split].
  - apply str_eqb_neq in E.
    split; [intros Hk; contradiction|].
    split; [intros _; split; reflexivity | repeat split].
Qed.

Lemma addReaction_counts (clock : nat -> Z) (random : nat -> jsstring)
  (kind : jsstring) (photoId : option jsstring) (s : State) :
  photos s <> [] ->
  exists i s1 p p',
    getOrCreatePhoto clock random photoId s = (Ok (Some i), s1)
    /\ nth_error (photos s1) i = Some p
    /\ fst (addReaction clock random kind photoId s) = Ok i
    /\ nth_error (photos (snd (addReaction clock random kind photoId s))) i
       = Some p'
    /\ (kind = js "dislike" ->
        dislikes p' = dislikes p + 1 /\ likes p' = likes p)
    /\ (kind <> js "dislike" ->
        likes p' = likes p + 1 /\ dislikes p' = dislikes p)
    /\ comments p' = comments p
    /\ id p' = id p
    /\ updatedAt p' = clock (clockReads s1)
    /\ (forall j, j <> i ->
          nth_error (photos (snd (addReaction clock random kind photoId s))) j
          = nth_error (photos s1) j).
Proof.
  intros Hs.
  destruct (getOrCreatePhoto_resolved clock random photoId s)
    as (r & s1 & Hget & Hres).
  destruct (resolved_nonempty _ _ _ _ _ _ Hs Hres) as (i & ->).
  destruct (resolved_in_range _ _ _ _ _ _ Hres) as (p & Hp).
  exists i, s1, p, (react kind (clock (clockReads s1)) p).
  rewrite (addReaction_eq _ _ kind _ _ _ _ Hget). cbn [fst snd photos tick].
  destruct (react_counts kind (clock (clockReads s1)) p)
    as (Hd & Hl & Hc & Hi & Hu).
  split; [exact Hget|]. split; [exact Hp|]. split; [reflexivity|].
  split; [rewrite nth_error_update_nth_eq, Hp; reflexivity|].
  repeat (split; trivial).
  intros j Hj. apply nth_error_update_nth_neq. congruence.
Qed.

Lemma addReaction_first (clock : nat -> Z) (random : nat -> jsstring)
  (kind : jsstring) :
  exists p0 p',
    nth_error (photos (boot clock random)) 0 = Some p0
    /\ likes p0 = 0 /\ dislikes p0 = 0
    /\ fst (addReaction clock random kind None (boot clock random)) = Ok O
    /\ nth_error
         (photos (snd (addReaction clock random kind None
                         (boot clock random)))) 0
       = Some p'
    /\ (likes p', dislikes p')
       = (if str_eqb kind (js "dislike") then (0, 1) else (1, 0)).
Proof.
  destruct (boot_grown clock random) as (back & Hb & Hn & Hlen).
  destruct back as [|p0 back]; [discriminate Hlen|].
  pose proof (newborns_blank _ _ _ Hn) as Hblank.
  apply Forall_inv in Hblank. destruct Hblank as (Hl0 & Hd0 & _).
  assert (Hget : getOrCreatePhoto clock random None (boot clock random)
                 = (Ok (Some O), boot clock random))
    by (rewrite getOrCreatePhoto_falsy by reflexivity; now rewrite Hb).
  exists p0, (react kind (clock (clockReads (boot clock random))) p0).
  rewrite (addReaction_eq _ _ kind _ _ _ _ Hget). cbn [fst snd photos tick].
  rewrite Hb. cbn [update_nth nth_error].
  repeat (split; trivial).
  unfold react. destruct (str_eqb kind (js "dislike")); cbn;
    now rewrite Hl0, Hd0.
Qed.

(** C5: in every state of the running server, and for every string given
    as kind, [addReaction] does not throw; with kind "dislike" the
    resolved photo gets one more dislike and keeps its likes, with any
    other kind it gets one more like and keeps its dislikes; its comments
    and identifier stay and no other photo is written.  On the first photo
    of the freshly loaded store the counts become likes 0, dislikes 1 for
    "dislike" and likes 1, dislikes 0 for every other kind. *)
Theorem C5_addReaction_counts :
  forall (clock : nat -> Z) (random : nat -> jsstring)
         (kind : jsstring) (photoId : option jsstring) (s : State),
    reachable clock random s ->
    (exists i s1 p p',
       getOrCreatePhoto clock random photoId s = (Ok (Some i), s1)
       /\ nth_error (photos s1) i = Some p
       /\ fst (addReaction clock random kind photoId s) = Ok i
       /\ nth_error (photos (snd (addReaction clock random kind photoId s))) i
          = Some p'
       /\ (kind = js "dislike" ->
           dislikes p' = dislikes p + 1 /\ likes p' = likes p)
       /\ (kind <> js "dislike" ->
           likes p' = likes p + 1 /\ dislikes p' = dislikes p)
       /\ comments p' = comments p
       /\ id p' = id p
       /\ updatedAt p' = clock (clockReads s1)
       /\ (forall j, j <> i ->
             nth_error (photos (snd (addReaction clock random kind photoId s))) j
             = nth_error (photos s1) j))
    /\ (exists p0 p',
          nth_error (photos (boot clock random)) 0 = Some p0
          /\ likes p0 = 0 /\ dislikes p0 = 0
          /\ fst (addReaction clock random kind None (boot clock random)) = Ok O
          /\ nth_error
               (photos (snd (addReaction clock random kind None
                               (boot clock random)))) 0
             = Some p'
          /\ (likes p', dislikes p')
             = (if str_eqb kind (js "dislike") then (0, 1) else (1, 0))).
Proof.
  intros clock random kind photoId s Hs. split.
  - apply addReaction_counts.
    pose proof (reachable_length clock random s Hs) as Hlen.
    intros He. rewrite He in Hlen. unfold INITIAL_PHOTO_COUNT in Hlen.
    simpl in Hlen. lia.
  - apply addReaction_first.
Qed.

Lemma C5_addReaction_counts_witness :
  exists p',
    nth_error
      (photos (snd (addReaction sample_clock sample_random (js "explode") None
                      (boot sample_clock sample_random)))) 0 = Some p'
    /\ (likes p', dislikes p') = (1, 0).
Proof.
  destruct (proj2 (C5_addReaction_counts sample_clock sample_random
                     (js "explode") None (boot sample_clock sample_random)
                     (reachable_boot sample_clock sample_random)))
    as (p0 & p' & _ & _ & _ & _ & Hp' & Hcounts).
  exists p'. split; [exact Hp' | exact Hcounts].
Defined.

(** ** Resolving a photo *)

Lemma find_findIndex {A : Type} (f : A -> bool) (l : list A) :
  find f l = match findIndex f l with
             | Some i => nth_error l i
             | None => None
             end.
Proof.
  induction l as [|x l IH]; simpl; [reflexivity|].
  destruct (f x); [reflexivity|]. rewrite IH.
  now destruct (findIndex f l).
Qed.

Lemma findIndex_present (x : jsstring) (l : list Photo) :
  In x (List.map id l) ->
  exists i, findIndex (fun photo => str_eqb (id photo) x) l = Some i.
Proof.
  intros Hin.
  destruct (findIndex (fun photo => str_eqb (id photo) x) l) as [i|] eqn:E;
    [now exists i|].
  rewrite findIndex_None in E.
  apply in_map_iff in Hin as (q & Hq & Hin). specialize (E q Hin).
  cbn in E. apply str_eqb_neq in E. congruence.
Qed.

Lemma findIndex_absent (x : jsstring) (l : list Photo) :
  ~ In x (List.map id l) ->
  findIndex (fun photo => str_eqb (id photo) x) l = None.
Proof.
  intros Hnin. apply findIndex_None. intros q Hq. apply str_eqb_neq.
  intros Heq. apply Hnin. rewrite <- Heq. now apply in_map.
Qed.

(** C6: on a store that holds a photo [getOrCreatePhoto] never
    throws and returns a stored photo.  Given no identifier, or the empty
    string, it returns the first photo and changes nothing.  Given a
    non-empty identifier that a stored photo carries, it returns the first
    such photo and changes nothing.  Given a non-empty identifier that no
    stored photo carries, it puts a new photo before all others and
    returns it: a new object with that identifier, no likes, dislikes or
    comments, and the clock reading of its creation as time stamp. *)
Theorem C6_getOrCreatePhoto_cases :
  forall (clock : nat -> Z) (random : nat -> jsstring)
         (photoId : option jsstring) (s : State),
    photos s <> [] ->
    exists i p s',
      getOrCreatePhoto clock random photoId s = (Ok (Some i), s')
      /\ nth_error (photos s') i = Some p
      /\ (falsy photoId = true ->
          s' = s /\ i = O /\ hd_error (photos s) = Some p)
      /\ (forall pid,
            photoId = Some pid -> pid <> [] ->
            In pid (List.map id (photos s)) ->
            s' = s /\ id p = pid
            /\ find (fun photo => str_eqb (id photo) pid) (photos s) = Some p)
      /\ (forall pid,
            photoId = Some pid -> pid <> [] ->
            ~ In pid (List.map id (photos s)) ->
            photos s' = p :: photos s /\ i = O
            /\ id p = pid /\ url p = CAT_URL
            /\ likes p = 0 /\ dislikes p = 0 /\ comments p = []
            /\ updatedAt p = clock (S (clockReads s))
            /\ ref p = allocated s /\ allocated s' = S (allocated s)).
Proof.
  intros clock random photoId s Hs.
  destruct (falsy photoId) eqn:Ef.
  - destruct (photos s) as [|p0 l] eqn:Ep; [congruence|].
    exists O, p0, s.
    rewrite getOrCreatePhoto_falsy, Ep by assumption.
    split; [reflexivity|]. split; [reflexivity|]. split; [auto|].
    split; intros pid -> Hne; destruct pid; simpl in Ef; congruence.
  - destruct photoId as [pid|]; [|discriminate].
    assert (Hne : pid <> []) by (intros ->; discriminate).
    destruct (findIndex (fun photo => str_eqb (id photo) pid) (photos s))
      as [i|] eqn:Ei.
    + destruct (findIndex_Some _ _ _ Ei) as (p & Hp & Hfp & _).
      apply str_eqb_eq in Hfp.
      exists i, p, s. rewrite (getOrCreatePhoto_found _ _ _ _ _ Hne Ei).
      split; [reflexivity|]. split; [exact Hp|]. split; [discriminate|].
      split; intros pid' Heq _ Hin; injection Heq as <-.
      * repeat split; trivial. now rewrite find_findIndex, Ei.
      * rewrite (findIndex_absent _ _ Hin) in Ei. discriminate.
    + exists O, (set_id pid (created clock random s)),
        (after_create (set_id pid (created clock random s) :: photos s) s).
      rewrite (getOrCreatePhoto_new _ _ _ _ Hne Ei).
      split; [reflexivity|]. split; [reflexivity|]. split; [discriminate|].
      split; intros pid' Heq _ Hin; injection Heq as <-.
      * destruct (findIndex_present _ _ Hin) as (i & Hi). congruence.
      * repeat split.
Qed.

Lemma C6_getOrCreatePhoto_cases_witness :
  exists p s',
    getOrCreatePhoto sample_clock sample_random (Some (js "zed")) sample_store
    = (Ok (Some O), s')
    /\ photos s' = p :: photos sample_store
    /\ id p = js "zed".
Proof.
  destruct (C6_getOrCreatePhoto_cases sample_clock sample_random
              (Some (js "zed")) sample_store ltac:(discriminate))
    as (i & p & s' & Hget & _ & _ & _ & Hnew).
  destruct (Hnew (js "zed") eq_refl ltac:(discriminate)) as (Hp & -> & Hid & _).
  - cbn. intros [H | [H | [H | []]]]; discriminate H.
  - exists p, s'. repeat split; trivial.
Defined.

(** The empty string is an identifier that no photo of the sample store
    carries, yet [getOrCreatePhoto] creates nothing for it: the store is
    left as it was and the first photo, whose identifier is "a", is
    returned. *)
Lemma C6_empty_identifier_counterexample :
  List.map id (photos sample_store) = [js "a"; js "b"; js "c"]
  /\ getOrCreatePhoto sample_clock sample_random (Some (js "")) sample_store
     = (Ok (Some O), sample_store)
  /\ option_map id (nth_error (photos sample_store) 0) = Some (js "a").
Proof. repeat split. Qed.

(** ** The serializer *)

Lemma array_at_new (h : heap) (v : list Entry.t) :
  array_at (h ++ [v]) (List.length h) = v.
Proof.
  unfold array_at. rewrite app_nth2 by lia. now rewrite Nat.sub_diag.
Qed.

Lemma firstn_update_nth {A : Type} (n i : nat) (f : A -> A) (l : list A) :
  (n <= i)%nat -> firstn n (update_nth i f l) = firstn n l.
Proof.
  revert n i. induction l as [|x l IH]; intros [|n] [|i] H; simpl; trivial;
    try lia.
  f_equal. apply IH. lia.
Qed.

Lemma nth_update_nth {A : Type} (i : nat) (f : A -> A) (l : list A) (d : A) :
  (i < List.length l)%nat -> nth i (update_nth i f l) d = f (nth i l d).
Proof.
  revert i. induction l as [|x l IH]; intros [|i] H; simpl in *; trivial;
    try lia.
  apply IH. lia.
Qed.

Lemma serializePhoto_comments_spec (ledger : nat) (h : heap) :
  (ledger < List.length h)%nat ->
  array_at (snd (serializePhoto_comments ledger h))
           (fst (serializePhoto_comments ledger h))
  = rev (slice_from (array_at h ledger) (-6))
  /\ firstn (List.length h) (snd (serializePhoto_comments ledger h)) = h
  /\ fst (serializePhoto_comments ledger h) = S (List.length h).
Proof.
  intros Hl. unfold serializePhoto_comments, array_spread, array_slice_from,
    array_reverse, array_new. cbn [fst snd].
  rewrite array_at_new, length_app. cbn [List.length].
  replace (List.length h + 1)%nat with (S (List.length h)) by lia.
  assert (Hlen : List.length (h ++ [array_at h ledger])
                 = S (List.length h)) by (rewrite length_app; simpl; lia).
  split; [|split; trivial].
  - unfold array_at at 1. rewrite nth_update_nth
      by (rewrite length_app, Hlen; simpl; lia).
    f_equal. rewrite <- Hlen. apply array_at_new.
  - rewrite firstn_update_nth by lia.
    rewrite <- app_assoc. rewrite firstn_app, Nat.sub_diag, firstn_all.
    simpl. now rewrite app_nil_r.
Qed.

(** C8: the object that [serializePhoto] builds carries the last six
    comments of the ledger, the most recent first, and the activity
    likes + dislikes + number of comments, next to the identifier, the
    source, the counters and the time stamp of the photo.  Building it
    changes no array that existed, the ledger among them: the reversal is
    done on a new array.  The states that the handlers and [getFeed]
    leave are those of the operations before serialization. *)
Theorem C8_serializePhoto_projection :
  forall (photo : Photo),
    View.comments (serializePhoto photo) = firstn 6 (rev (comments photo))
    /\ View.comments (serializePhoto photo)
       = rev (skipn (List.length (comments photo) - 6) (comments photo))
    /\ View.activity (serializePhoto photo)
       = likes photo + dislikes photo
         + Z.of_nat (List.length (comments photo))
    /\ View.id (serializePhoto photo) = id photo
    /\ View.url (serializePhoto photo) = url photo
    /\ View.likes (serializePhoto photo) = likes photo
    /\ View.dislikes (serializePhoto photo) = dislikes photo
    /\ View.updatedAt (serializePhoto photo) = updatedAt photo
    /\ (forall (h : heap) (ledger : nat),
          (ledger < List.length h)%nat ->
          array_at h ledger = comments photo ->
          array_at (snd (serializePhoto_comments ledger h))
                   (fst (serializePhoto_comments ledger h))
          = View.comments (serializePhoto photo)
          /\ firstn (List.length h) (snd (serializePhoto_comments ledger h)) = h
          /\ array_at (snd (serializePhoto_comments ledger h)) ledger
             = comments photo
          /\ fst (serializePhoto_comments ledger h) <> ledger)
    /\ (forall (m : M nat) (s : State), snd (respond_photo m s) = snd (m s))
    /\ (forall (clock : nat -> Z) (random : nat -> jsstring)
               (cursor limit : Z) (s : State),
          snd (getFeed clock random cursor limit s)
          = snd (ensurePhotos clock random (cursor + limit + 2) s)).
Proof.
  intros photo.
  assert (Htail : View.comments (serializePhoto photo)
                  = rev (skipn (List.length (comments photo) - 6)
                           (comments photo))).
  { cbn [serializePhoto View.comments].
    change (slice_from (comments photo) (-6))
      with (slice_from (comments photo) (- (6))).
    now rewrite (slice_from_last (comments photo) 6) by lia. }
  split; [rewrite Htail; symmetry; apply firstn_rev|].
  split; [exact Htail|].
  do 6 (split; [reflexivity|]).
  split; [|split; [apply snd_respond_photo|]].
  - intros h ledger Hl Hled.
    destruct (serializePhoto_comments_spec ledger h Hl) as (Hr & Hh & Hf).
    split; [rewrite Hr, Hled; reflexivity|].
    split; [exact Hh|]. split; [|lia].
    rewrite <- Hled. unfold array_at.
    rewrite <- (firstn_skipn (List.length h)
                  (snd (serializePhoto_comments ledger h))).
    rewrite Hh. now rewrite app_nth1.
  - intros clock random cursor limit s.
    destruct (getFeed_eq clock random cursor limit s)
      as (s' & Hrun & _ & _ & Hf).
    now rewrite Hf, Hrun.
Qed.

(** ** Identifiers *)

Lemma find_app {A : Type} (f : A -> bool) (l1 l2 : list A) :
  find f (l1 ++ l2)
  = match find f l1 with Some x => Some x | None => find f l2 end.
Proof.
  induction l1 as [|x l1 IH]; simpl; [reflexivity|].
  now destruct (f x).
Qed.

Lemma find_touched (x : jsstring) (l l' : list Photo) :
  Forall2 touched l l' ->
  option_map ref (find (fun photo => str_eqb (id photo) x) l')
  = option_map ref (find (fun photo => str_eqb (id photo) x) l).
Proof.
  induction 1 as [|p p' l l' Ht Hl IH]; simpl; [reflexivity|].
  destruct (touched_frame _ _ Ht) as (Hr & Hi & _). rewrite Hi.
  destruct (str_eqb (id p) x); simpl; [now rewrite Hr | exact IH].
Qed.

Lemma Forall2_In_l {A : Type} (R : A -> A -> Prop) (l l' : list A) (x : A) :
  Forall2 R l l' -> In x l -> exists y, In y l' /\ R x y.
Proof.
  induction 1 as [|a b l l' Hab Hl IH]; simpl; [contradiction|].
  intros [<- | Hin].
  - exists b. auto.
  - destruct (IH Hin) as (y & Hy & Hxy). exists y. auto.
Qed.

Lemma evolved_owner (front back : list Photo) (s s' : State)
  (x : jsstring) (r : nat) :
  evolved front back s s' -> owner x s = Some r -> owner x s' = Some r.
Proof.
  intros (H2 & _ & _ & _ & Hfresh) Hown. unfold owner in *.
  rewrite (find_touched x _ _ H2), find_app.
  destruct (find (fun photo => str_eqb (id photo) x) (photos s))
    as [q|] eqn:Eq; [|discriminate].
  apply find_some in Eq as Hq. destruct Hq as [Hin Hid].
  apply str_eqb_eq in Hid.
  destruct (find (fun photo => str_eqb (id photo) x) front) as [n|] eqn:En.
  - apply find_some in En as [Hn Hnid]. apply str_eqb_eq in Hnid.
    rewrite Forall_forall in Hfresh. exfalso. apply (Hfresh n Hn).
    rewrite Hnid, <- Hid. now apply in_map.
  - now rewrite find_app, Eq.
Qed.

Lemma evolved_kept (front back : list Photo) (s s' : State) (p : Photo) :
  evolved front back s s' -> In p (photos s) ->
  exists p', In p' (photos s') /\ ref p' = ref p /\ id p' = id p.
Proof.
  intros (H2 & _) Hin.
  destruct (Forall2_In_l touched _ _ p H2) as (p' & Hp' & Ht).
  - apply in_or_app. right. apply in_or_app. now left.
  - exists p'. destruct (touched_frame _ _ Ht) as (Hr & Hi & _). auto.
Qed.

Lemma owner_resolves (clock : nat -> Z) (random : nat -> jsstring)
  (x : jsstring) (s : State) (r : nat) :
  x <> [] -> owner x s = Some r ->
  exists i q,
    getOrCreatePhoto clock random (Some x) s = (Ok (Some i), s)
    /\ nth_error (photos s) i = Some q /\ ref q = r /\ id q = x.
Proof.
  intros Hx Hown. unfold owner in Hown. rewrite find_findIndex in Hown.
  destruct (findIndex (fun photo => str_eqb (id photo) x) (photos s))
    as [i|] eqn:Ei; [|discriminate].
  destruct (findIndex_Some _ _ _ Ei) as (q & Hq & Hid & _).
  apply str_eqb_eq in Hid. rewrite Hq in Hown. injection Hown as Hr.
  exists i, q. split; [now apply getOrCreatePhoto_found|]. auto.
Qed.

Lemma owner_present (s : State) (p : Photo) :
  In p (photos s) -> exists r, owner (id p) s = Some r.
Proof.
  intros Hin. unfold owner.
  destruct (find (fun photo => str_eqb (id photo) (id p)) (photos s))
    as [q|] eqn:Eq; [now exists (ref q)|].
  pose proof (find_none _ _ Eq p Hin) as Hp. cbn in Hp.
  apply str_eqb_neq in Hp. congruence.
Qed.

Lemma NoDup_app_iff {A : Type} (l1 l2 : list A) :
  NoDup (l1 ++ l2)
  <-> NoDup l1 /\ NoDup l2 /\ (forall x, In x l2 -> ~ In x l1).
Proof.
  induction l1 as [|a l1 IH]; simpl.
  - split.
    + intros H. split; [constructor|]. split; [exact H|]. intros x _ [].
    + intros (_ & H & _). exact H.
  - rewrite !NoDup_cons_iff, IH, in_app_iff. split.
    + intros (Ha & H1 & H2 & H12). repeat split; trivial; [tauto|].
      intros x Hx [<- | Hin]; [tauto | now apply (H12 x)].
    + intros ((Ha & H1) & H2 & H12). repeat split; trivial.
      * intros [Hin | Hin]; [tauto | apply (H12 a Hin); auto].
      * intros x Hx Hin. apply (H12 x Hx). auto.
Qed.

Lemma evolved_front_unique (front : list Photo) (s s' : State) :
  evolved front [] s s' ->
  NoDup (List.map id (photos s)) -> NoDup (List.map id (photos s')).
Proof.
  intros (H2 & _ & Hlen & _ & Hfresh) Hnd.
  destruct (Forall2_touched_maps _ _ H2) as (_ & Hi & _).
  rewrite Hi, app_nil_r, map_app.
  destruct front as [|p [|q front]]; simpl in *; trivial; [|lia].
  constructor; trivial. now inversion Hfresh.
Qed.

Section Identifiers.

Variable clock : nat -> Z.
Variable random : nat -> jsstring.

Lemma later_run (rs : list request) (s s' : State) :
  later clock random s s' -> later clock random s (run clock random rs s').
Proof.
  revert s'. induction rs as [|r rs IH]; intros s' Hl; [exact Hl|].
  cbn [run fold_left]. apply IH. now apply later_handle.
Qed.

Lemma later_owner (s s' : State) (x : jsstring) (r : nat) :
  later clock random s s' -> owner x s = Some r -> owner x s' = Some r.
Proof.
  induction 1 as [|req s s' Hl IH]; trivial. intros Hown.
  destruct (handle_evolved clock random req s') as (front & back & He).
  apply (evolved_owner _ _ _ _ _ _ He). auto.
Qed.

Lemma later_kept (s s' : State) (p : Photo) :
  later clock random s s' -> In p (photos s) ->
  exists p', In p' (photos s') /\ ref p' = ref p /\ id p' = id p.
Proof.
  induction 1 as [|req s s' Hl IH]; intros Hin; [now exists p|].
  destruct (IH Hin) as (p1 & Hp1 & Hr1 & Hi1).
  destruct (handle_evolved clock random req s') as (front & back & He).
  destruct (evolved_kept _ _ _ _ _ He Hp1) as (p2 & Hp2 & Hr2 & Hi2).
  exists p2. repeat split; trivial; congruence.
Qed.

Lemma post_unique (s : State) :
  NoDup (List.map id (photos s)) ->
  forall (body : jsstring) (photoId : option jsstring),
    NoDup (List.map id
             (photos (snd (handle clock random (PostLike body photoId) s))))
    /\ NoDup (List.map id
                (photos (snd (handle clock random
                                (PostComment body photoId) s)))).
Proof.
  intros Hnd body photoId. split; cbn [handle]; rewrite snd_respond_photo.
  - destruct (addReaction_evolved clock random
                (if str_eqb body (js "dislike") then js "dislike"
                 else js "like") photoId s) as (front & He).
    now apply (evolved_front_unique _ _ _ He).
  - destruct (addComment_evolved clock random (sanitizeText body) photoId s)
      as (front & He).
    now apply (evolved_front_unique _ _ _ He).
Qed.

Lemma feed_unique (s : State) (cursor limit : option Z) :
  exists back,
    photos (snd (handle clock random (GetFeed cursor limit) s))
    = photos s ++ back
    /\ (NoDup (List.map id
                 (photos (snd (handle clock random (GetFeed cursor limit) s))))
        <-> NoDup (List.map id (photos s))
            /\ NoDup (List.map id back)
            /\ (forall x, In x (List.map id back) ->
                          ~ In x (List.map id (photos s)))).
Proof.
  rewrite snd_handle_GetFeed.
  destruct (getFeed_evolved clock random (number_or cursor 0)
              (number_or limit DEFAULT_PAGE_SIZE) s) as (back & Hp & _).
  exists back. split; [exact Hp|].
  rewrite Hp, map_app. apply NoDup_app_iff.
Qed.

End Identifiers.

(** C7: in a running server a stored photo is never removed and
    never gets another identifier, no identifier is empty, and the
    identifier of a stored photo resolves, now and after any further
    requests, to one and the same object, without creating anything;
    objects are stored once, so the object number tells them apart.
    Requests that react or comment keep identifiers unique.  A feed
    request only appends the photos that [createPhoto] generates, so after
    it identifiers are unique exactly when they were before and the
    generated identifiers differ from each other and from those present:
    the engine does not compare a generated identifier with the store. *)
Theorem C7_identifiers_stay_resolved :
  forall (clock : nat -> Z) (random : nat -> jsstring) (s s' : State),
    reachable clock random s -> later clock random s s' ->
    NoDup (List.map ref (photos s'))
    /\ (forall p, In p (photos s) ->
          id p <> []
          /\ (exists p', In p' (photos s') /\ ref p' = ref p /\ id p' = id p)
          /\ exists r i i' q q',
               owner (id p) s = Some r /\ owner (id p) s' = Some r
               /\ getOrCreatePhoto clock random (Some (id p)) s
                  = (Ok (Some i), s)
               /\ nth_error (photos s) i = Some q /\ ref q = r
               /\ getOrCreatePhoto clock random (Some (id p)) s'
                  = (Ok (Some i'), s')
               /\ nth_error (photos s') i' = Some q' /\ ref q' = r
               /\ id q' = id p)
    /\ (NoDup (List.map id (photos s')) ->
        forall body photoId,
          NoDup (List.map id
                   (photos (snd (handle clock random
                                   (PostLike body photoId) s'))))
          /\ NoDup (List.map id
                      (photos (snd (handle clock random
                                      (PostComment body photoId) s')))))
    /\ (forall cursor limit,
          exists back,
            photos (snd (handle clock random (GetFeed cursor limit) s'))
            = photos s' ++ back
            /\ (NoDup (List.map id
                         (photos (snd (handle clock random
                                         (GetFeed cursor limit) s'))))
                <-> NoDup (List.map id (photos s'))
                    /\ NoDup (List.map id back)
                    /\ (forall x, In x (List.map id back) ->
                                  ~ In x (List.map id (photos s'))))).
Proof.
  intros clock random s s' Hs Hl.
  pose proof (later_reachable clock random s s' Hs Hl) as Hs'.
  destruct (reachable_ok clock random s Hs) as (_ & Hid & _ & _).
  destruct (reachable_ok clock random s' Hs') as (_ & _ & Hnd' & _).
  split; [exact Hnd'|]. split; [|split].
  - intros p Hp.
    assert (Hne : id p <> []) by (rewrite Forall_forall in Hid; auto).
    split; [exact Hne|]. split; [now apply (later_kept clock random s s')|].
    destruct (owner_present s p Hp) as (r & Hown).
    pose proof (later_owner clock random s s' (id p) r Hl Hown) as Hown'.
    destruct (owner_resolves clock random (id p) s r Hne Hown)
      as (i & q & Hget & Hq & Hr & _).
    destruct (owner_resolves clock random (id p) s' r Hne Hown')
      as (i' & q' & Hget' & Hq' & Hr' & Hi').
    exists r, i, i', q, q'. repeat split; trivial.
  - intros Hnd body photoId. now apply post_unique.
  - intros cursor limit. apply feed_unique.
Qed.

Lemma C7_identifiers_stay_resolved_witness :
  NoDup
    (List.map ref
       (photos (run sample_clock sample_random
                  [PostLike (js "like") (Some (js "zed"));
                   GetFeed (Some 20) (Some 5);
                   PostComment (js "hi") None]
                  (boot sample_clock sample_random)))).
Proof.
  apply (C7_identifiers_stay_resolved sample_clock sample_random
           (boot sample_clock sample_random)).
  - apply reachable_boot.
  - apply later_run, later_now.
Defined.

(** When the clock stands still while the module is loaded and the random
    source returns two numbers with the same first six hexadecimal digits,
    the first two photos of the freshly loaded store are different objects
    with one identifier. *)
Lemma C7_repeated_identifier_counterexample :
  reachable still_clock repeating_random (boot still_clock repeating_random)
  /\ List.map (fun p => (ref p, id p))
       (firstn 2 (photos (boot still_clock repeating_random)))
     = [ (O, js "cat-1700000000000-5c21e0");
         (S O, js "cat-1700000000000-5c21e0") ].
Proof.
  split; [apply reachable_boot | vm_compute; reflexivity].
Qed.

(** ** Worked instances *)

Lemma C2_rank_order_witness :
  List.map id (sort compareFn shuffled_items)
  = [js "a"; js "d"; js "b"; js "c"; js "e"]
  /\ sort compareFn (List.map (set_id (js "x")) shuffled_items)
     = List.map (set_id (js "x")) (sort compareFn shuffled_items)
  /\ exists feed s',
       getFeed sample_clock sample_random 0 3 shuffled_store = (Ok feed, s')
       /\ photos s' = photos shuffled_store
       /\ List.map View.id (Feed.photos feed) = [js "a"; js "d"; js "b"].
Proof.
  split; [|split].
  - vm_compute. reflexivity.
  - apply (proj1 (proj2 (proj2 (proj2 (C2_rank_order shuffled_items))))).
    intros p. split; reflexivity.
  - destruct (proj2 (proj2 (proj2 (proj2 (C2_rank_order shuffled_items))))
                sample_clock sample_random 0 3 shuffled_store)
      as (feed & s' & back & Hget & Hp & _ & Hback & _ & Hpage & _).
    destruct back as [|b back]; [|discriminate Hback].
    rewrite app_nil_r in Hp, Hpage.
    exists feed, s'. split; [exact Hget|]. split; [exact Hp|].
    rewrite Hpage. reflexivity.
Defined.

Lemma C4_addComment_EmptyInput_iff_witness :
  exists i,
    fst (addComment sample_clock sample_random (js "  hello   world  ")
           (Some (js "b")) sample_store) = Ok i.
Proof.
  apply (proj2 (proj2 (proj2 (proj2 (proj2
           (C4_addComment_EmptyInput_iff sample_clock sample_random
              (js "") (Some (js "b")) sample_store)))))).
  discriminate.
Defined.

Lemma C8_serializePhoto_projection_witness :
  List.map Entry.timestamp (View.comments (serializePhoto busy_photo))
  = [8; 7; 6; 5; 4; 3]
  /\ View.activity (serializePhoto busy_photo) = 11
  /\ array_at (snd (serializePhoto_comments 0 [comments busy_photo])) 0
     = comments busy_photo.
Proof.
  split; [|split].
  - rewrite (proj1 (C8_serializePhoto_projection busy_photo)). reflexivity.
  - rewrite (proj1 (proj2 (proj2 (C8_serializePhoto_projection busy_photo)))).
    reflexivity.
  - apply (proj1 (proj2 (proj2 (proj2 (proj2 (proj2 (proj2 (proj2 (proj2
             (C8_serializePhoto_projection busy_photo)))))))))
             [comments busy_photo] O ltac:(simpl; lia) eq_refl).
Defined.

(** * Further properties *)

(** ** Totals *)

Lemma computeTotals_fold (l : list Photo) (acc : Totals.t) :
  fold_left
    (fun acc photo =>
       {| Totals.likes := Totals.likes acc + likes photo;
          Totals.dislikes := Totals.dislikes acc + dislikes photo;
          Totals.comments :=
            Totals.comments acc + Z.of_nat (List.length (comments photo)) |})
    l acc
  = {| Totals.likes := Totals.likes acc + Zsum (List.map likes l);
       Totals.dislikes := Totals.dislikes acc + Zsum (List.map dislikes l);
       Totals.comments :=
         Totals.comments acc + Zsum (List.map ledger_size l) |}.
Proof.
  revert acc. induction l as [|p l IH]; intros acc; cbn [fold_left List.map Zsum fold_right].
  - destruct acc. cbn. f_equal; lia.
  - rewrite IH. cbn [Totals.likes Totals.dislikes Totals.comments].
    fold (Zsum (List.map likes l)) (Zsum (List.map dislikes l))
      (Zsum (List.map ledger_size l)).
    unfold ledger_size at 2. f_equal; lia.
Qed.

Lemma computeTotals_sums (l : list Photo) :
  computeTotals l
  = {| Totals.likes := Zsum (List.map likes l);
       Totals.dislikes := Zsum (List.map dislikes l);
       Totals.comments := Zsum (List.map ledger_size l) |}.
Proof. unfold computeTotals. now rewrite computeTotals_fold. Qed.

Lemma Zsum_app (l1 l2 : list Z) : Zsum (l1 ++ l2) = Zsum l1 + Zsum l2.
Proof. induction l1 as [|x l1 IH]; simpl; [reflexivity | rewrite IH; lia]. Qed.

Lemma Zsum_perm (l1 l2 : list Z) : Permutation l1 l2 -> Zsum l1 = Zsum l2.
Proof. induction 1; simpl; lia. Qed.

Lemma Zsum_activity (l : list Photo) :
  Zsum (List.map likes l) + Zsum (List.map dislikes l)
  + Zsum (List.map ledger_size l)
  = Zsum (List.map activity_of l).
Proof.
  induction l as [|p l IH]; simpl; [reflexivity|].
  unfold activity_of at 1, ledger_size at 1. lia.
Qed.

(** X1: the totals are the sums of the likes, of the dislikes and of the
    ledger lengths of the photos given; their sum is the sum of the
    activities; they do not depend on the order of the photos, so the
    totals of a feed, computed on the ranked copy, are those of the store
    as the feed request leaves it. *)
Theorem X1_computeTotals_sums :
  forall (l : list Photo),
    Totals.likes (computeTotals l) = Zsum (List.map likes l)
    /\ Totals.dislikes (computeTotals l) = Zsum (List.map dislikes l)
    /\ Totals.comments (computeTotals l) = Zsum (List.map ledger_size l)
    /\ Totals.likes (computeTotals l) + Totals.dislikes (computeTotals l)
       + Totals.comments (computeTotals l)
       = Zsum (List.map activity_of l)
    /\ (forall l', Permutation l l' -> computeTotals l' = computeTotals l)
    /\ (forall (clock : nat -> Z) (random : nat -> jsstring)
               (cursor limit : Z) (s : State),
          exists feed,
            fst (getFeed clock random cursor limit s) = Ok feed
            /\ Feed.totals feed
               = computeTotals
                   (photos (snd (getFeed clock random cursor limit s)))).
Proof.
  intros l. rewrite computeTotals_sums. cbn [Totals.likes Totals.dislikes Totals.comments].
  do 3 (split; [reflexivity|]). split; [apply Zsum_activity|].
  assert (Hperm : forall a b, Permutation a b -> computeTotals b = computeTotals a).
  { intros a b Hab. rewrite !computeTotals_sums.
    f_equal; apply Zsum_perm, Permutation_map; now symmetry. }
  split.
  - intros l' Hl. rewrite <- computeTotals_sums. now apply Hperm.
  - intros clock random cursor limit s.
    destruct (getFeed_eq clock random cursor limit s) as (s' & _ & _ & _ & Hf).
    rewrite Hf. cbn [fst snd]. eexists. split; [reflexivity|].
    cbn [Feed.totals]. apply Hperm. symmetry. apply sort_perm.
Qed.

(** ** Growing the store *)

Lemma ensurePhotos_noop (clock : nat -> Z) (random : nat -> jsstring)
  (minCount : Z) (s : State) :
  minCount <= Z.of_nat (List.length (photos s)) ->
  ensurePhotos clock random minCount s = (Ok tt, s).
Proof.
  intros H. unfold ensurePhotos, bind, get_photos.
  replace (Z.to_nat (minCount - Z.of_nat (List.length (photos s)))) with O
    by lia.
  reflexivity.
Qed.

(** X2: [ensurePhotos] does nothing, and reads neither the clock nor the
    random source, when the store already holds [minCount] photos; in
    particular a second call with the same or a smaller count leaves the
    state of the first. *)
Theorem X2_ensurePhotos_idempotent :
  forall (clock : nat -> Z) (random : nat -> jsstring) (n m : Z) (s : State),
    m <= n ->
    ensurePhotos clock random m (snd (ensurePhotos clock random n s))
    = (Ok tt, snd (ensurePhotos clock random n s))
    /\ (n <= Z.of_nat (List.length (photos s)) ->
        ensurePhotos clock random n s = (Ok tt, s)).
Proof.
  intros clock random n m s Hmn. split; [|apply ensurePhotos_noop].
  destruct (ensurePhotos_spec clock random n s) as (s' & Hrun & _ & Hlen).
  rewrite Hrun. cbn [snd]. apply ensurePhotos_noop. lia.
Qed.

Lemma X2_ensurePhotos_idempotent_witness :
  ensurePhotos sample_clock sample_random 4
    (snd (ensurePhotos sample_clock sample_random 5 sample_store))
  = (Ok tt, snd (ensurePhotos sample_clock sample_random 5 sample_store)).
Proof.
  apply (proj1 (X2_ensurePhotos_idempotent sample_clock sample_random 5 4
                  sample_store ltac:(lia))).
Defined.

(** X3: [ensurePhotos] never throws and never touches a stored photo: it
    appends max(0, minCount - length) photos, each with the cat URL, no
    likes, dislikes or comments and an identifier that starts with "cat-",
    and makes two clock readings and one random reading for each. *)
Theorem X3_ensurePhotos_appends :
  forall (clock : nat -> Z) (random : nat -> jsstring)
         (minCount : Z) (s : State),
    exists back,
      fst (ensurePhotos clock random minCount s) = Ok tt
      /\ photos (snd (ensurePhotos clock random minCount s))
         = photos s ++ back
      /\ Z.of_nat (List.length back)
         = Z.max 0 (minCount - Z.of_nat (List.length (photos s)))
      /\ Forall born back
      /\ clockReads (snd (ensurePhotos clock random minCount s))
         = (clockReads s + 2 * List.length back)%nat
      /\ randomReads (snd (ensurePhotos clock random minCount s))
         = (randomReads s + List.length back)%nat.
Proof.
  intros clock random minCount s.
  destruct (ensurePhotos_spec clock random minCount s)
    as (s' & Hrun & Hg & Hlen).
  destruct (grown_born clock random s s' Hg)
    as (back & Hp & Hb & Hc & Hr & _).
  exists back. rewrite Hrun. cbn [fst snd].
  split; [reflexivity|]. split; [exact Hp|].
  split; [|now repeat split].
  rewrite Hp, length_app in Hlen. lia.
Qed.

(** X4: a feed request repeated at once with the same cursor and limit
    returns the same feed and leaves the same state: the first request has
    grown the store as far as the second one needs. *)
Theorem X4_getFeed_repeated :
  forall (clock : nat -> Z) (random : nat -> jsstring)
         (cursor limit : Z) (s : State),
    getFeed clock random cursor limit
      (snd (getFeed clock random cursor limit s))
    = getFeed clock random cursor limit s.
Proof.
  intros clock random cursor limit s.
  destruct (getFeed_eq clock random cursor limit s)
    as (s' & Hrun & _ & Hlen & Hf).
  rewrite Hf. cbn [snd]. unfold getFeed, bind.
  rewrite ensurePhotos_noop by lia. reflexivity.
Qed.

(** ** The order of a feed page *)

Lemma StronglySorted_skipn {A : Type} (R : A -> A -> Prop) (n : nat)
  (l : list A) :
  StronglySorted R l -> StronglySorted R (skipn n l).
Proof.
  revert l. induction n as [|n IH]; intros l H; [exact H|].
  destruct l as [|x l]; [exact H|]. simpl. apply IH.
  now inversion H.
Qed.

Lemma StronglySorted_firstn {A : Type} (R : A -> A -> Prop) (n : nat)
  (l : list A) :
  StronglySorted R l -> StronglySorted R (firstn n l).
Proof.
  revert l. induction n as [|n IH]; intros l H; [constructor|].
  destruct l as [|x l]; [constructor|]. simpl.
  inversion H as [|y r Hr Hx]; subst. constructor; [now apply IH|].
  rewrite Forall_forall in *. intros z Hz. apply Hx.
  rewrite <- (firstn_skipn n l). apply in_or_app. now left.
Qed.

Lemma StronglySorted_map {A B : Type} (R : A -> A -> Prop)
  (R' : B -> B -> Prop) (f : A -> B) (l : list A) :
  (forall a b, R a b -> R' (f a) (f b)) ->
  StronglySorted R l -> StronglySorted R' (List.map f l).
Proof.
  intros Hf. induction 1 as [|x l Hl IH Hx]; simpl; constructor; trivial.
  rewrite Forall_forall in *. intros y Hy.
  apply in_map_iff in Hy as (z & <- & Hz). auto.
Qed.

Lemma page_sorted (l : list Photo) (cursor limit : Z) :
  StronglySorted ranks_before l ->
  StronglySorted view_ranks_before (page l cursor limit).
Proof.
  intros H. unfold page, slice.
  apply StronglySorted_map with (R := ranks_before).
  - intros a b Hab. exact Hab.
  - now apply StronglySorted_firstn, StronglySorted_skipn.
Qed.

(** X5: whatever the cursor and the limit, the entries of a feed page are
    in ranking order: each has at least the activity of every entry after
    it, and among entries of equal activity the one updated last comes
    first. *)
Theorem X5_feed_page_sorted :
  forall (clock : nat -> Z) (random : nat -> jsstring)
         (cursor limit : Z) (s : State),
    exists feed,
      fst (getFeed clock random cursor limit s) = Ok feed
      /\ StronglySorted view_ranks_before (Feed.photos feed).
Proof.
  intros clock random cursor limit s.
  destruct (getFeed_eq clock random cursor limit s) as (s' & _ & _ & _ & Hf).
  rewrite Hf. eexists. split; [reflexivity|].
  cbn [Feed.photos]. apply page_sorted, rank_sorted.
Qed.

(** X6: the first entry of the first page (cursor 0, limit > 0) shows the
    photo of greatest activity: no photo of the store, as the request
    leaves it, has more. *)
Theorem X6_feed_top_is_most_active :
  forall (clock : nat -> Z) (random : nat -> jsstring)
         (limit : Z) (s : State),
    0 < limit ->
    exists feed v rest,
      fst (getFeed clock random 0 limit s) = Ok feed
      /\ Feed.photos feed = v :: rest
      /\ forall p,
           In p (photos (snd (getFeed clock random 0 limit s))) ->
           activity_of p <= View.activity v.
Proof.
  intros clock random limit s Hl.
  destruct (getFeed_eq clock random 0 limit s) as (s' & _ & _ & Hlen & Hf).
  rewrite Hf. cbn [fst snd].
  pose proof (rank_sorted (photos s')) as Hs.
  pose proof (sort_perm compareFn (photos s')) as Hperm.
  pose proof (length_sort compareFn (photos s')) as Hsl.
  destruct (sort compareFn (photos s')) as [|x r] eqn:Es;
    [simpl in Hsl; lia|].
  eexists _, (serializePhoto x),
    (List.map serializePhoto (firstn (Z.to_nat limit - 1) r)).
  split; [reflexivity|]. split.
  - cbn [Feed.photos]. unfold page. rewrite slice_nonneg by lia.
    replace (Z.to_nat (0 + limit - 0)) with (S (Z.to_nat limit - 1)) by lia.
    reflexivity.
  - intros p Hp. cbn [serializePhoto View.activity]. fold (activity_of x).
    apply (Permutation_in _ (Permutation_sym Hperm)) in Hp.
    destruct Hp as [<- | Hp]; [lia|].
    inversion Hs as [|y r' Hr Hx]; subst.
    rewrite Forall_forall in Hx. specialize (Hx p Hp).
    unfold ranks_before in Hx. lia.
Qed.

Lemma X6_feed_top_is_most_active_witness :
  exists feed v rest,
    fst (getFeed sample_clock sample_random 0 2 sample_store) = Ok feed
    /\ Feed.photos feed = v :: rest
    /\ View.activity v = 5.
Proof.
  destruct (X6_feed_top_is_most_active sample_clock sample_random 2
              sample_store ltac:(lia)) as (feed & v & rest & Hf & Hp & _).
  exists feed, v, rest. split; [exact Hf|]. split; [exact Hp|].
  vm_compute in Hf. injection Hf as <-. injection Hp as <- _. reflexivity.
Defined.

(** ** Normalised text *)

Lemma collapsed_replace (b : bool) (s : jsstring) :
  collapsed b (replace_spaces b s) = true.
Proof.
  revert b. induction s as [|c s IH]; intros b; [reflexivity|].
  cbn [replace_spaces]. destruct (is_space c) eqn:Ec.
  - destruct b; [apply IH|]. cbn [collapsed].
    change (is_space 32%N) with true. cbn. apply IH.
  - cbn [collapsed]. rewrite Ec. apply IH.
Qed.

Lemma collapsed_weaken (b : bool) (s : jsstring) :
  collapsed b s = true -> collapsed false s = true.
Proof.
  destruct s as [|c s]; [trivial|]. cbn [collapsed].
  destruct (is_space c); [|trivial].
  destruct b; [|trivial]. rewrite andb_false_r. discriminate.
Qed.

Lemma collapsed_tail (b : bool) (c : jschar) (s : jsstring) :
  collapsed b (c :: s) = true -> collapsed false s = true.
Proof.
  cbn [collapsed]. destruct (is_space c).
  - intros H. apply andb_true_iff in H as [_ H].
    now apply collapsed_weaken with true.
  - trivial.
Qed.

Lemma collapsed_prefix (b : bool) (l1 l2 : jsstring) :
  collapsed b (l1 ++ l2) = true -> collapsed b l1 = true.
Proof.
  revert b. induction l1 as [|c l1 IH]; intros b; [reflexivity|].
  cbn [app collapsed]. destruct (is_space c).
  - intros H. apply andb_true_iff in H as [H1 H2].
    rewrite H1. now apply IH.
  - apply IH.
Qed.

Lemma collapsed_suffix (b : bool) (l1 l2 : jsstring) :
  collapsed b (l1 ++ l2) = true -> collapsed false l2 = true.
Proof.
  revert b. induction l1 as [|c l1 IH]; intros b H.
  - now apply collapsed_weaken with b.
  - apply collapsed_tail in H. now apply IH with false.
Qed.

Lemma collapsed_fixed (b : bool) (s : jsstring) :
  collapsed b s = true -> replace_spaces b s = s.
Proof.
  revert b. induction s as [|c s IH]; intros b; [reflexivity|].
  cbn [collapsed replace_spaces]. destruct (is_space c).
  - intros H. apply andb_true_iff in H as [H1 H2].
    apply andb_true_iff in H1 as [Hc Hb]. apply N.eqb_eq in Hc.
    destruct b; [discriminate|]. rewrite (IH true H2). now subst.
  - intros H. now rewrite (IH false H).
Qed.

Lemma trimStart_suffix (s : jsstring) : exists pre, s = pre ++ trimStart s.
Proof.
  induction s as [|c s (pre & IH)]; [now exists []|]. cbn [trimStart].
  destruct (is_space c); [|now exists []].
  exists (c :: pre). simpl. now rewrite <- IH.
Qed.

Lemma trimEnd_prefix (s : jsstring) : exists post, s = trimEnd s ++ post.
Proof.
  unfold trimEnd. destruct (trimStart_suffix (rev s)) as (pre & H).
  exists (rev pre). rewrite <- rev_app_distr, <- H. now rewrite rev_involutive.
Qed.

Lemma firstn_prefix {A : Type} (n : nat) (l : list A) :
  exists post, l = firstn n l ++ post.
Proof. exists (skipn n l). now rewrite firstn_skipn. Qed.

Lemma trimStart_head (s : jsstring) (c : jschar) (r : jsstring) :
  trimStart s = c :: r -> is_space c = false.
Proof.
  induction s as [|x s IH]; cbn [trimStart]; [discriminate|].
  destruct (is_space x) eqn:Ex; [exact IH|].
  intros H. injection H as <- _. exact Ex.
Qed.

Lemma trimStart_app (l : jsstring) (c : jschar) (r : jsstring) :
  is_space c = false -> trimStart (l ++ c :: r) = trimStart l ++ c :: r.
Proof.
  intros Hc. induction l as [|x l IH]; cbn [app trimStart].
  - now rewrite Hc.
  - destruct (is_space x); [exact IH | reflexivity].
Qed.

Lemma trimEnd_cons (c : jschar) (r : jsstring) :
  is_space c = false -> trimEnd (c :: r) = c :: trimEnd r.
Proof.
  intros Hc. unfold trimEnd. cbn [rev].
  rewrite trimStart_app by assumption. now rewrite rev_unit.
Qed.

Lemma trim_head (s : jsstring) (c : jschar) (r : jsstring) :
  trim s = c :: r -> is_space c = false.
Proof.
  unfold trim. destruct (trimStart s) as [|d t] eqn:Et; [discriminate|].
  pose proof (trimStart_head _ _ _ Et) as Hd.
  rewrite trimEnd_cons by assumption. intros H. injection H as <- _.
  exact Hd.
Qed.

Lemma trim_last (s : jsstring) (r : jsstring) (c : jschar) :
  trim s = r ++ [c] -> is_space c = false.
Proof.
  unfold trim, trimEnd. intros H.
  apply (f_equal (@rev jschar)) in H.
  rewrite rev_involutive, rev_unit in H.
  now apply trimStart_head in H.
Qed.

Lemma trim_fixed (s : jsstring) :
  (forall c r, s = c :: r -> is_space c = false) ->
  (forall r c, s = r ++ [c] -> is_space c = false) ->
  trim s = s.
Proof.
  intros Hhead Hlast. unfold trim.
  assert (Hs : trimStart s = s).
  { destruct s as [|c r]; [reflexivity|]. cbn [trimStart].
    now rewrite (Hhead c r eq_refl). }
  rewrite Hs. unfold trimEnd.
  destruct (rev s) as [|c r] eqn:Er; [now rewrite <- (rev_involutive s), Er|].
  assert (Hc : is_space c = false).
  { apply (Hlast (rev r) c). rewrite <- (rev_involutive s), Er. reflexivity. }
  cbn [trimStart]. rewrite Hc, <- Er. apply rev_involutive.
Qed.

Lemma length_trimStart (s : jsstring) :
  (List.length (trimStart s) <= List.length s)%nat.
Proof.
  destruct (trimStart_suffix s) as (pre & H).
  rewrite H at 2. rewrite length_app. lia.
Qed.

Lemma length_trim (s : jsstring) :
  (List.length (trim s) <= List.length s)%nat.
Proof.
  unfold trim, trimEnd. rewrite length_rev.
  pose proof (length_trimStart (rev (trimStart s))) as H.
  rewrite length_rev in H. pose proof (length_trimStart s). lia.
Qed.

Lemma length_replace_spaces (b : bool) (s : jsstring) :
  (List.length (replace_spaces b s) <= List.length s)%nat.
Proof.
  revert b. induction s as [|c s IH]; intros b; [simpl; lia|].
  cbn [replace_spaces]. destruct (is_space c); [destruct b|]; simpl;
    [pose proof (IH true) | pose proof (IH true) | pose proof (IH false)];
    lia.
Qed.

Lemma visible_replace_spaces (b : bool) (s : jsstring) :
  visible (replace_spaces b s) = visible s.
Proof.
  unfold visible. revert b. induction s as [|c s IH]; intros b; [reflexivity|].
  cbn [replace_spaces filter]. destruct (is_space c) eqn:Ec; cbn [negb].
  - destruct b; [apply IH|]. cbn [filter].
    change (is_space 32%N) with true. cbn [negb]. apply IH.
  - cbn [filter]. rewrite Ec. cbn [negb]. now rewrite IH.
Qed.

Lemma visible_trimStart (s : jsstring) : visible (trimStart s) = visible s.
Proof.
  unfold visible. induction s as [|c s IH]; [reflexivity|].
  cbn [trimStart]. destruct (is_space c) eqn:Ec; [|reflexivity].
  cbn [filter]. rewrite Ec. cbn [negb]. exact IH.
Qed.

Lemma visible_trim (s : jsstring) : visible (trim s) = visible s.
Proof.
  assert (Hrev : forall l, visible (rev l) = rev (visible l))
    by (intros l; apply filter_rev).
  unfold trim, trimEnd.
  rewrite Hrev, visible_trimStart, Hrev, rev_involutive.
  apply visible_trimStart.
Qed.

Lemma sanitizeText_collapsed (text : jsstring) :
  collapsed false (sanitizeText text) = true.
Proof.
  rewrite sanitizeText_firstn.
  destruct (firstn_prefix 240 (trim (replace_spaces false text)))
    as (post & Hf).
  apply collapsed_prefix with post. rewrite <- Hf. unfold trim.
  destruct (trimEnd_prefix (trimStart (replace_spaces false text)))
    as (post' & He).
  apply collapsed_prefix with post'. rewrite <- He.
  destruct (trimStart_suffix (replace_spaces false text)) as (pre & Hs).
  apply collapsed_suffix with false pre. rewrite <- Hs.
  apply collapsed_replace.
Qed.

Lemma sanitizeText_head (text : jsstring) (c : jschar) (r : jsstring) :
  sanitizeText text = c :: r -> is_space c = false.
Proof.
  rewrite sanitizeText_firstn.
  destruct (trim (replace_spaces false text)) as [|d t] eqn:Et;
    [discriminate|].
  intros H. injection H as <- _. now apply trim_head in Et.
Qed.

Lemma sanitizeText_short (text : jsstring) :
  Z.of_nat (List.length text) <= MAX_COMMENT_LENGTH ->
  sanitizeText text = trim (replace_spaces false text).
Proof.
  unfold MAX_COMMENT_LENGTH. intros H. rewrite sanitizeText_firstn.
  apply firstn_all2.
  pose proof (length_trim (replace_spaces false text)).
  pose proof (length_replace_spaces false text). lia.
Qed.

(** X7: normalisation removes or replaces white space only: the code
    units of the result that are not white space are the first ones of
    the text, in the same order, and all of them when the text has at most
    240 code units; the white space left in the result consists of single
    spaces U+0020; the result never starts with white space. *)
Theorem X7_sanitizeText_keeps_visible :
  forall (text : jsstring),
    (exists rest, visible text = visible (sanitizeText text) ++ rest)
    /\ collapsed false (sanitizeText text) = true
    /\ (forall c r, sanitizeText text = c :: r -> is_space c = false)
    /\ (Z.of_nat (List.length text) <= MAX_COMMENT_LENGTH ->
        visible (sanitizeText text) = visible text).
Proof.
  intros text. split; [|split; [apply sanitizeText_collapsed|split]].
  - rewrite sanitizeText_firstn.
    exists (visible (skipn 240 (trim (replace_spaces false text)))).
    unfold visible at 2 3. rewrite <- filter_app, firstn_skipn.
    fold (visible (trim (replace_spaces false text))).
    now rewrite visible_trim, visible_replace_spaces.
  - apply sanitizeText_head.
  - intros H. rewrite sanitizeText_short by assumption.
    now rewrite visible_trim, visible_replace_spaces.
Qed.

Lemma X7_sanitizeText_keeps_visible_witness :
  visible (sanitizeText (js "  hello   world  ")) = js "helloworld".
Proof.
  rewrite (proj2 (proj2 (proj2 (X7_sanitizeText_keeps_visible
                                  (js "  hello   world  "))))).
  - reflexivity.
  - vm_compute. discriminate.
Defined.

Lemma sanitizeText_twice (text : jsstring) :
  sanitizeText (sanitizeText text) = trim (sanitizeText text).
Proof.
  rewrite (sanitizeText_short (sanitizeText text))
    by apply sanitizeText_length.
  now rewrite (collapsed_fixed false _ (sanitizeText_collapsed text)).
Qed.

Lemma sanitizeText_twice_empty (text : jsstring) :
  sanitizeText (sanitizeText text) = [] <-> sanitizeText text = [].
Proof.
  split; [|intros ->; reflexivity].
  rewrite sanitizeText_empty_iff.
  destruct (sanitizeText text) as [|c r] eqn:E; [trivial|].
  cbn [forallb]. rewrite (sanitizeText_head _ _ _ E). discriminate.
Qed.

(** X8: normalisation is not idempotent, since cutting at 240 code units
    can leave a space at the end, but a second pass only trims the first
    result and a third pass changes nothing.  The text that has been
    normalised twice, as the comment handler does it, neither starts nor
    ends with white space, and is empty exactly when the first result is. *)
Theorem X8_sanitizeText_twice :
  forall (text : jsstring),
    sanitizeText (sanitizeText text) = trim (sanitizeText text)
    /\ (sanitizeText (sanitizeText text) = [] <-> sanitizeText text = [])
    /\ (forall c r, sanitizeText (sanitizeText text) = c :: r ->
                    is_space c = false)
    /\ (forall r c, sanitizeText (sanitizeText text) = r ++ [c] ->
                    is_space c = false)
    /\ sanitizeText (sanitizeText (sanitizeText text))
       = sanitizeText (sanitizeText text)
    /\ sanitizeText long_text <> sanitizeText (sanitizeText long_text).
Proof.
  intros text.
  split; [apply sanitizeText_twice|].
  split; [apply sanitizeText_twice_empty|].
  split; [apply sanitizeText_head|].
  assert (Hlast : forall r c, sanitizeText (sanitizeText text) = r ++ [c] ->
                              is_space c = false).
  { intros r c. rewrite sanitizeText_twice. apply trim_last. }
  split; [exact Hlast|]. split.
  - rewrite (sanitizeText_twice (sanitizeText text)).
    apply trim_fixed; [apply sanitizeText_head | exact Hlast].
  - vm_compute. discriminate.
Qed.

Lemma length_update_nth_same {A : Type} (i : nat) (f : A -> A) (l : list A) :
  List.length (update_nth i f l) = List.length l.
Proof.
  revert i. induction l as [|x l IH]; intros [|i]; simpl; auto.
Qed.

(** ** Counters never go down *)

Lemma touched_grows (p p' : Photo) :
  touched p p' ->
  likes p <= likes p' /\ dislikes p <= dislikes p'
  /\ ledger_size p <= ledger_size p'.
Proof.
  intros [q | action now q | entry now q]; unfold ledger_size.
  - lia.
  - unfold react. destruct (str_eqb action (js "dislike")); cbn; lia.
  - unfold commented, shift_if_over, push_comment.
    cbn [comments set_comments likes dislikes set_updatedAt].
    destruct (MAX_COMMENTS_PER_PHOTO
              <? Z.of_nat (List.length (comments q ++ [entry])));
      cbn [comments set_comments likes dislikes set_updatedAt].
    + destruct (comments q) as [|e l]; cbn [app tl List.length];
        [lia | rewrite length_app; cbn [List.length]; lia].
    + rewrite length_app. cbn [List.length]. lia.
Qed.

Lemma evolved_grows (front back : list Photo) (s s' : State) (p : Photo) :
  evolved front back s s' -> In p (photos s) ->
  exists p',
    In p' (photos s') /\ ref p' = ref p /\ id p' = id p /\ url p' = url p
    /\ likes p <= likes p' /\ dislikes p <= dislikes p'
    /\ ledger_size p <= ledger_size p'.
Proof.
  intros (H2 & _) Hin.
  destruct (Forall2_In_l touched _ _ p H2) as (p' & Hp' & Ht).
  - apply in_or_app. right. apply in_or_app. now left.
  - exists p'. destruct (touched_frame _ _ Ht) as (Hr & Hi & Hu & _).
    destruct (touched_grows _ _ Ht) as (Hl & Hd & Hc).
    repeat split; trivial.
Qed.

(** X9: whatever requests are served, a stored photo stays in the store
    as the same object with the same identifier and URL, and its likes,
    its dislikes and the length of its ledger never decrease, so neither
    does its activity. *)
Theorem X9_counters_never_decrease :
  forall (clock : nat -> Z) (random : nat -> jsstring)
         (s s' : State) (p : Photo),
    later clock random s s' -> In p (photos s) ->
    exists p',
      In p' (photos s') /\ ref p' = ref p /\ id p' = id p /\ url p' = url p
      /\ likes p <= likes p' /\ dislikes p <= dislikes p'
      /\ ledger_size p <= ledger_size p'
      /\ activity_of p <= activity_of p'.
Proof.
  intros clock random s s' p Hl Hin.
  induction Hl as [s | req s s' Hl IH].
  - exists p. unfold activity_of. repeat split; trivial; lia.
  - destruct (IH Hin) as (p1 & Hp1 & Hr1 & Hi1 & Hu1 & Hl1 & Hd1 & Hc1 & _).
    destruct (handle_evolved clock random req s') as (front & back & He).
    destruct (evolved_grows _ _ _ _ _ He Hp1)
      as (p2 & Hp2 & Hr2 & Hi2 & Hu2 & Hl2 & Hd2 & Hc2).
    exists p2. unfold activity_of, ledger_size in *.
    repeat split; trivial; try congruence; lia.
Qed.

Lemma X9_counters_never_decrease_witness :
  exists p',
    In p' (photos (run sample_clock sample_random
                     [PostLike (js "like") (Some (js "b"));
                      PostComment (js "hi") (Some (js "b"))]
                     sample_store))
    /\ id p' = js "b" /\ 3 <= likes p' /\ 1 <= dislikes p'.
Proof.
  destruct (X9_counters_never_decrease sample_clock sample_random
              sample_store
              (run sample_clock sample_random
                 [PostLike (js "like") (Some (js "b"));
                  PostComment (js "hi") (Some (js "b"))]
                 sample_store)
              (sample_photo 1 "b" 3 1 20))
    as (p' & Hin & _ & Hid & _ & Hl & Hd & _).
  - apply later_run, later_now.
  - simpl. auto.
  - exists p'. repeat split; trivial.
Defined.

(** ** Resolving twice *)

Lemma findIndex_existsb {A : Type} (f : A -> bool) (l : list A) :
  findIndex f l = None <-> existsb f l = false.
Proof.
  induction l as [|x l IH]; simpl; [tauto|].
  destruct (f x); simpl.
  - split; discriminate.
  - rewrite <- IH. destruct (findIndex f l); simpl; split;
      trivial; discriminate.
Qed.

Lemma str_eqb_refl (a : jsstring) : str_eqb a a = true.
Proof. now apply str_eqb_eq. Qed.

(** X10: resolving the same identifier again, right after
    [getOrCreatePhoto], returns the same reference and changes nothing:
    a photo is created for an identifier at most once. *)
Theorem X10_getOrCreatePhoto_again :
  forall (clock : nat -> Z) (random : nat -> jsstring)
         (photoId : option jsstring) (s : State),
    getOrCreatePhoto clock random photoId
      (snd (getOrCreatePhoto clock random photoId s))
    = (fst (getOrCreatePhoto clock random photoId s),
       snd (getOrCreatePhoto clock random photoId s)).
Proof.
  intros clock random photoId s.
  destruct (getOrCreatePhoto_resolved clock random photoId s)
    as (r & s1 & Hget & Hres).
  rewrite Hget. cbn [fst snd]. inversion Hres; subst.
  - now apply getOrCreatePhoto_falsy.
  - now apply getOrCreatePhoto_found.
  - apply getOrCreatePhoto_found; trivial.
    cbn [photos after_create findIndex id set_id].
    now rewrite str_eqb_refl.
Qed.

(** X11: the length of the store after a request.  A reaction adds one
    photo exactly when its identifier is a non-empty string that no stored
    photo carries, and none otherwise; a comment does the same unless its
    text normalises to the empty string, in which case nothing is added; a
    feed request adds what is missing up to cursor + limit + 2. *)
Theorem X11_store_length_after_request :
  forall (clock : nat -> Z) (random : nat -> jsstring)
         (r : request) (s : State),
    List.length (photos (snd (handle clock random r s)))
    = match r with
      | PostLike _ photoId =>
          if unknown photoId s then S (List.length (photos s))
          else List.length (photos s)
      | PostComment text photoId =>
          match sanitizeText text with
          | [] => List.length (photos s)
          | _ :: _ =>
              if unknown photoId s then S (List.length (photos s))
              else List.length (photos s)
          end
      | GetFeed cursor limit =>
          Nat.max (List.length (photos s))
            (Z.to_nat (number_or cursor 0
                       + number_or limit DEFAULT_PAGE_SIZE + 2))
      end.
Proof.
  intros clock random r s.
  assert (Hres : forall photoId r1 s1,
             resolved clock random photoId s r1 s1 ->
             List.length (photos s1)
             = if unknown photoId s then S (List.length (photos s))
               else List.length (photos s)).
  { intros photoId r1 s1 H. inversion H; subst.
    - destruct photoId as [[|c pid]|]; try discriminate; reflexivity.
    - destruct pid as [|c pid]; [congruence|]. cbn [unknown].
      destruct (existsb (fun photo => str_eqb (id photo) (c :: pid))
                  (photos s1)) eqn:E; [reflexivity|].
      apply findIndex_existsb in E. congruence.
    - destruct pid as [|c pid]; [congruence|]. cbn [unknown].
      match goal with
      | Hnone : findIndex _ _ = None |- _ =>
          apply findIndex_existsb in Hnone; rewrite Hnone
      end.
      reflexivity. }
  destruct r as [action photoId | text photoId | cursor limit].
  - cbn [handle]. rewrite snd_respond_photo.
    destruct (getOrCreatePhoto_resolved clock random photoId s)
      as (r1 & s1 & Hget & Hr).
    rewrite <- (Hres _ _ _ Hr). destruct r1 as [i|].
    + rewrite (addReaction_eq _ _ _ _ _ _ _ Hget). cbn [snd photos tick].
      apply length_update_nth_same.
    + now rewrite (addReaction_undefined _ _ _ _ _ _ Hget).
  - cbn [handle]. rewrite snd_respond_photo.
    destruct (sanitizeText text) as [|c t] eqn:Et.
    + rewrite addComment_empty; reflexivity.
    + assert (Hne : sanitizeText (c :: t) <> []).
      { rewrite <- Et, sanitizeText_twice_empty. congruence. }
      destruct (getOrCreatePhoto_resolved clock random photoId s)
        as (r1 & s1 & Hget & Hr).
      rewrite <- (Hres _ _ _ Hr). destruct r1 as [i|].
      * destruct (resolved_in_range _ _ _ _ _ _ Hr) as (p & Hp).
        rewrite (addComment_eq _ _ _ _ _ _ _ _ Hne Hget Hp).
        cbn [snd photos tick]. apply length_update_nth_same.
      * now rewrite (addComment_undefined _ _ _ _ _ _ Hne Hget).
  - rewrite snd_handle_GetFeed.
    destruct (getFeed_eq clock random (number_or cursor 0)
                (number_or limit DEFAULT_PAGE_SIZE) s)
      as (s' & _ & _ & Hlen & Hf).
    rewrite Hf. cbn [snd]. lia.
Qed.

(** ** What the handlers answer *)












(** ** Pagination at the edges *)

(** X14: a feed request without a limit, or with limit 0, is served with
    the default page size: for a cursor >= 0 the page has exactly 8
    entries and the next cursor is cursor + 8; a request without a cursor
    starts at 0. *)
Theorem X14_feed_defaults :
  forall (clock : nat -> Z) (random : nat -> jsstring)
         (cursor : Z) (s : State),
    0 <= cursor ->
    handle clock random (GetFeed (Some cursor) None) s
    = handle clock random (GetFeed (Some cursor) (Some 0)) s
    /\ handle clock random (GetFeed None None) s
       = handle clock random (GetFeed (Some 0) (Some DEFAULT_PAGE_SIZE)) s
    /\ exists feed,
         fst (handle clock random (GetFeed (Some cursor) (Some 0)) s)
         = FeedPage feed
         /\ List.length (Feed.photos feed) = 8%nat
         /\ Feed.nextCursor feed = cursor + 8.
Proof.
  intros clock random cursor s Hc.
  split; [reflexivity|]. split; [reflexivity|].
  cbn [handle]. rewrite number_or_id by lia.
  cbn [number_or Z.eqb]. unfold DEFAULT_PAGE_SIZE.
  destruct (getFeed_eq clock random cursor 8 s) as (s' & _ & _ & Hlen & Hf).
  rewrite Hf. eexists. split; [reflexivity|].
  cbn [Feed.photos Feed.nextCursor]. split; [|reflexivity].
  apply Nat2Z.inj. unfold page.
  rewrite length_map, length_slice_nonneg, length_sort by lia. lia.
Qed.

Lemma X14_feed_defaults_witness :
  exists feed,
    fst (handle sample_clock sample_random (GetFeed (Some 3) (Some 0))
           sample_store) = FeedPage feed
    /\ List.length (Feed.photos feed) = 8%nat
    /\ Feed.nextCursor feed = 3 + 8.
Proof.
  exact (proj2 (proj2 (X14_feed_defaults sample_clock sample_random 3
                         sample_store ltac:(lia)))).
Defined.

(** X15: a negative limit is not rejected.  For a cursor >= 0 the page is
    empty when cursor + limit >= 0; when cursor + limit < 0 the end of the
    window counts from the end of the list and the page holds
    max(0, length + limit) entries. *)
Theorem X15_page_negative_limit :
  forall (items : list Photo) (cursor limit : Z),
    0 <= cursor -> limit < 0 ->
    Z.of_nat (List.length (page items cursor limit))
    = if 0 <=? cursor + limit then 0
      else Z.max 0 (Z.of_nat (List.length items) + limit).
Proof.
  intros items cursor limit Hc Hl. unfold page, slice, rel_index.
  rewrite length_map, length_firstn, length_skipn.
  set (len := Z.of_nat (List.length items)).
  assert (Hlen : 0 <= len) by (unfold len; lia).
  destruct (cursor <? 0) eqn:E1; [apply Z.ltb_lt in E1; lia|].
  destruct (cursor + limit <? 0) eqn:E2;
    destruct (0 <=? cursor + limit) eqn:E3;
    try apply Z.ltb_lt in E2; try apply Z.ltb_ge in E2;
    try apply Z.leb_le in E3; try apply Z.leb_gt in E3;
    unfold len in *; lia.
Qed.

Lemma X15_page_negative_limit_witness :
  List.length (page sample_items 0 (-1)) = 2%nat
  /\ List.length (page sample_items 2 (-1)) = 0%nat.
Proof.
  split; apply Nat2Z.inj.
  - rewrite (X15_page_negative_limit sample_items 0 (-1)) by lia.
    reflexivity.
  - rewrite (X15_page_negative_limit sample_items 2 (-1)) by lia.
    reflexivity.
Defined.

Lemma firstn_plus {A : Type} (a b : nat) (l : list A) :
  firstn (a + b) l = firstn a l ++ firstn b (skipn a l).
Proof.
  revert l. induction a as [|a IH]; intros l; [reflexivity|].
  destruct l as [|x l]; simpl; [now rewrite firstn_nil|].
  now rewrite IH.
Qed.

Lemma skipn_plus {A : Type} (a b : nat) (l : list A) :
  skipn (a + b) l = skipn b (skipn a l).
Proof.
  revert l. induction a as [|a IH]; intros l; [reflexivity|].
  destruct l as [|x l]; simpl; [now rewrite skipn_nil|]. apply IH.
Qed.

Lemma page_concat (items : list Photo) (cursor l1 l2 : Z) :
  0 <= cursor -> 0 <= l1 -> 0 <= l2 ->
  page items cursor l1 ++ page items (cursor + l1) l2
  = page items cursor (l1 + l2).
Proof.
  intros Hc H1 H2. unfold page. rewrite !slice_nonneg by lia.
  rewrite <- map_app. f_equal.
  replace (Z.to_nat (cursor + (l1 + l2) - cursor))
    with (Z.to_nat l1 + Z.to_nat l2)%nat by lia.
  replace (Z.to_nat (cursor + l1 - cursor)) with (Z.to_nat l1) by lia.
  replace (Z.to_nat (cursor + l1 + l2 - (cursor + l1)))
    with (Z.to_nat l2) by lia.
  replace (Z.to_nat (cursor + l1))
    with (Z.to_nat cursor + Z.to_nat l1)%nat by lia.
  now rewrite firstn_plus, skipn_plus.
Qed.

(** X16: following the next cursor leaves no gap and shows nothing twice
    as long as the store is not changed in between: when the store
    already holds cursor + l1 + l2 + 2 photos, a feed request for
    (cursor, l1) followed by one for (cursor + l1, l2) leaves the state as
    it was and the two pages, one after the other, are the page of
    (cursor, l1 + l2). *)
Theorem X16_consecutive_pages :
  forall (clock : nat -> Z) (random : nat -> jsstring)
         (cursor l1 l2 : Z) (s : State),
    0 <= cursor -> 0 < l1 -> 0 < l2 ->
    cursor + l1 + l2 + 2 <= Z.of_nat (List.length (photos s)) ->
    exists feed1 feed2 feed,
      getFeed clock random cursor l1 s = (Ok feed1, s)
      /\ getFeed clock random (Feed.nextCursor feed1) l2 s = (Ok feed2, s)
      /\ getFeed clock random cursor (l1 + l2) s = (Ok feed, s)
      /\ Feed.photos feed1 ++ Feed.photos feed2 = Feed.photos feed
      /\ Feed.nextCursor feed2 = Feed.nextCursor feed.
Proof.
  intros clock random cursor l1 l2 s Hc H1 H2 Hlen.
  assert (Hfeed : forall c l, c + l + 2 <= Z.of_nat (List.length (photos s)) ->
            getFeed clock random c l s
            = (Ok {| Feed.totals := computeTotals (sort compareFn (photos s));
                     Feed.photos := page (sort compareFn (photos s)) c l;
                     Feed.nextCursor := c + l |}, s)).
  { intros c l H. unfold getFeed, bind.
    now rewrite ensurePhotos_noop by assumption. }
  eexists _, _, _.
  split; [apply Hfeed; lia|]. cbn [Feed.nextCursor].
  split; [apply Hfeed; lia|].
  split; [apply Hfeed; lia|]. cbn [Feed.photos Feed.nextCursor].
  split; [apply page_concat; lia | lia].
Qed.

Lemma X16_consecutive_pages_witness :
  exists feed1 feed2 feed,
    getFeed sample_clock sample_random 0 3
      (boot sample_clock sample_random)
    = (Ok feed1, boot sample_clock sample_random)
    /\ getFeed sample_clock sample_random (Feed.nextCursor feed1) 4
         (boot sample_clock sample_random)
       = (Ok feed2, boot sample_clock sample_random)
    /\ getFeed sample_clock sample_random 0 (3 + 4)
         (boot sample_clock sample_random)
       = (Ok feed, boot sample_clock sample_random)
    /\ Feed.photos feed1 ++ Feed.photos feed2 = Feed.photos feed
    /\ Feed.nextCursor feed2 = Feed.nextCursor feed.
Proof.
  apply (X16_consecutive_pages sample_clock sample_random 0 3 4
           (boot sample_clock sample_random)); try lia.
  vm_compute. discriminate.
Defined.

(** ** What the store holds *)

Lemma sanitizeText_stable (text : jsstring) :
  sanitizeText (sanitizeText (sanitizeText text))
  = sanitizeText (sanitizeText text).
Proof.
  rewrite (sanitizeText_twice (sanitizeText text)).
  apply trim_fixed; [apply sanitizeText_head|].
  intros r c. rewrite sanitizeText_twice. apply trim_last.
Qed.

Lemma Forall_update_nth {A : Type} (P : A -> Prop) (i : nat) (g : A -> A)
  (l : list A) :
  Forall P l ->
  (forall p, nth_error l i = Some p -> P p -> P (g p)) ->
  Forall P (update_nth i g l).
Proof.
  intros Hl. revert i. induction Hl as [|x l Hx Hl IH]; intros [|i] Hg;
    simpl; constructor; trivial.
  - now apply Hg.
  - apply IH. intros p Hp. now apply (Hg p).
Qed.

Lemma tidy_react (action : jsstring) (now : Z) (p : Photo) :
  tidy p -> tidy (react action now p).
Proof.
  intros (Hu & Hl & Hd & Hc). unfold react, tidy.
  destruct (str_eqb action (js "dislike")); cbn; repeat split; trivial; lia.
Qed.

Lemma tidy_commented (entry : Entry.t) (now : Z) (p : Photo) :
  tidy p -> entry_ok p entry -> tidy (commented entry now p).
Proof.
  intros (Hu & Hl & Hd & Hc) He.
  assert (Hall : Forall (entry_ok p) (comments p ++ [entry]))
    by (apply Forall_app; split; [exact Hc | now constructor]).
  unfold commented, shift_if_over, push_comment, tidy.
  cbn [comments set_comments].
  destruct (MAX_COMMENTS_PER_PHOTO
            <? Z.of_nat (List.length (comments p ++ [entry])));
    cbn; repeat split; trivial.
  destruct (comments p ++ [entry]) as [|e l]; [constructor|].
  now inversion Hall.
Qed.

Lemma tidy_born (p : Photo) : born p -> tidy p.
Proof.
  intros (Hu & Hl & Hd & Hc & _). unfold tidy.
  rewrite Hl, Hd, Hc. repeat split; trivial; lia.
Qed.

Lemma resolved_tidy (clock : nat -> Z) (random : nat -> jsstring)
  (photoId : option jsstring) (s s1 : State) (r : option nat) :
  resolved clock random photoId s r s1 ->
  Forall tidy (photos s) -> Forall tidy (photos s1).
Proof.
  intros H Hs. inversion H; subst; trivial.
  cbn [photos after_create]. constructor; trivial.
  unfold tidy. cbn. repeat split; try lia. constructor.
Qed.

Lemma handle_tidy (clock : nat -> Z) (random : nat -> jsstring)
  (r : request) (s : State) :
  Forall tidy (photos s) ->
  Forall tidy (photos (snd (handle clock random r s))).
Proof.
  intros Hs. destruct r as [action photoId | text photoId | cursor limit].
  - cbn [handle]. rewrite snd_respond_photo.
    destruct (getOrCreatePhoto_resolved clock random photoId s)
      as (r1 & s1 & Hget & Hr).
    pose proof (resolved_tidy _ _ _ _ _ _ Hr Hs) as Hs1.
    destruct r1 as [i|].
    + rewrite (addReaction_eq _ _ _ _ _ _ _ Hget). cbn [snd photos tick].
      apply Forall_update_nth; trivial.
      intros p _. apply tidy_react.
    + now rewrite (addReaction_undefined _ _ _ _ _ _ Hget).
  - cbn [handle]. rewrite snd_respond_photo.
    destruct (sanitizeText (sanitizeText text)) as [|c t] eqn:Et.
    + now rewrite addComment_empty.
    + assert (Hne : sanitizeText (sanitizeText text) <> []) by congruence.
      destruct (getOrCreatePhoto_resolved clock random photoId s)
        as (r1 & s1 & Hget & Hr).
      pose proof (resolved_tidy _ _ _ _ _ _ Hr Hs) as Hs1.
      destruct r1 as [i|].
      * destruct (resolved_in_range _ _ _ _ _ _ Hr) as (p & Hp).
        rewrite (addComment_eq _ _ _ _ _ _ _ _ Hne Hget Hp).
        cbn [snd photos tick]. apply Forall_update_nth; trivial.
        intros q Hq Htq. rewrite Hp in Hq. injection Hq as <-.
        apply tidy_commented; trivial.
        unfold entry_ok, new_entry. cbn [Entry.photoId Entry.text].
        split; [reflexivity|]. split; [exact Hne|].
        apply sanitizeText_stable.
      * now rewrite (addComment_undefined _ _ _ _ _ _ Hne Hget).
  - rewrite snd_handle_GetFeed.
    destruct (getFeed_eq clock random (number_or cursor 0)
                (number_or limit DEFAULT_PAGE_SIZE) s)
      as (s' & _ & Hg & _ & Hf).
    rewrite Hf. cbn [snd].
    destruct (grown_born _ _ _ _ Hg) as (back & Hp & Hb & _).
    rewrite Hp. apply Forall_app. split; trivial.
    eapply Forall_impl; [apply tidy_born | exact Hb].
Qed.

(** X17: in a running server every photo has the cat URL and counters
    that are not negative, and every comment in a ledger names the photo
    that holds it and has a text that is not empty and that
    [sanitizeText] leaves as it is: at most 240 code units, no white space
    at either end and none but single spaces inside. *)
Theorem X17_store_is_tidy :
  forall (clock : nat -> Z) (random : nat -> jsstring) (s : State),
    reachable clock random s ->
    Forall tidy (photos s)
    /\ (forall p e, In p (photos s) -> In e (comments p) ->
          Z.of_nat (List.length (Entry.text e)) <= MAX_COMMENT_LENGTH
          /\ trim (Entry.text e) = Entry.text e
          /\ collapsed false (Entry.text e) = true).
Proof.
  intros clock random s Hs.
  assert (Ht : Forall tidy (photos s)).
  { induction Hs as [|r s Hs IH].
    - destruct (boot_grown clock random) as (back & Hp & _).
      unfold boot in *.
      destruct (ensurePhotos_spec clock random INITIAL_PHOTO_COUNT
                  (mkState [] O O O)) as (s' & Hrun & Hg & _).
      rewrite Hrun. cbn [snd].
      destruct (grown_born _ _ _ _ Hg) as (back' & Hp' & Hb & _).
      rewrite Hp'. cbn [photos app].
      eapply Forall_impl; [apply tidy_born | exact Hb].
    - now apply handle_tidy. }
  split; [exact Ht|]. intros p e Hp He.
  rewrite Forall_forall in Ht. destruct (Ht p Hp) as (_ & _ & _ & Hc).
  rewrite Forall_forall in Hc. destruct (Hc e He) as (_ & Hne & Hfix).
  split; [rewrite <- Hfix; apply sanitizeText_length|]. split.
  - transitivity (sanitizeText (sanitizeText (Entry.text e)));
      [rewrite sanitizeText_twice | idtac]; now rewrite !Hfix.
  - rewrite <- Hfix. apply sanitizeText_collapsed.
Qed.

Lemma X17_store_is_tidy_witness :
  Forall tidy
    (photos (run sample_clock sample_random
               [PostComment long_text (Some (js "zed"));
                PostLike (js "dislike") None]
               (boot sample_clock sample_random))).
Proof.
  apply (X17_store_is_tidy sample_clock sample_random).
  apply reachable_run, reachable_boot.
Defined.
